(** * sveltebase: reactive PocketBase state adapters

    A shallow embedding of the synchronization classes of the library:

    - [PocketBaseState]   (src/lib/utils/pb-state.svelte.ts), the base class;
    - [CollectionState]   (src/lib/data/collection.svelte.ts and its sibling
                           copy, the patch-in-place variant);
    - [RecordState]       (the single-record adapter);
    - [CurrentUserState]  (the authentication adapter).

    JavaScript runs these classes on one event loop.  An [async] method runs
    synchronously up to its first [await]; the rest runs when the awaited
    remote call settles.  Each method is therefore embedded as two functions:
    the part up to the [await] (named after the method) and the part after it
    (suffix [_resume]), which receives the outcome of the remote call.  The
    event loop itself is a labelled step function over a [world]: the fields
    of the object, the continuations waiting for a remote call, and the trace
    of remote calls issued so far. *)

From stdpp Require Import gmap strings list fin_maps.
From Stdlib Require Import ZArith Lia.

Open Scope Z_scope.

(** ** JavaScript values and records *)

(** Field values as they arrive from the JSON API. *)
Inductive value :=
| VNull
| VBool (b : bool)
| VNum (n : Z)
| VStr (s : string).

#[global] Instance value_eq_dec : EqDecision value.
Proof. solve_decision. Defined.

(** The result of reading a property: [None] is [undefined].  On these
    values [===] is plain equality. *)
Abbreviation jsval := (option value).

(** A [RecordModel]: a mapping from field names to values. *)
Abbreviation record := (gmap string value).

(** [r.id] *)
Definition id_of (r : record) : jsval := r !! "id".

(** Truthiness of a string option ([if (this.filterQuery)]). *)
Definition truthy_str (o : option string) : bool :=
  match o with
  | Some s => negb (String.eqb s "")
  | None => false
  end.

(** Truthiness of a property value ([data?.id || recordId], [if (!id)]). *)
Definition truthy_val (v : jsval) : bool :=
  match v with
  | None | Some VNull => false
  | Some (VBool b) => b
  | Some (VNum n) => negb (n =? 0)
  | Some (VStr s) => negb (String.eqb s "")
  end.

(** The observed value of a [WritableState<T | null | undefined>]. *)
Inductive cell (A : Type) :=
| Undefined
| Null
| Val (a : A).
Arguments Undefined {A}.
Arguments Null {A}.
Arguments Val {A} a.

(** [if (this.data)]: objects and arrays are truthy, also when empty. *)
Definition truthy {A} (c : cell A) : bool :=
  match c with
  | Val _ => true
  | _ => false
  end.

(** ** Errors *)

Record Error := mkError { message : string }.

(** What a remote call may throw: an [Error], or any other value, of which
    only [String(err)] is ever used. *)
Inductive thrown :=
| ThrownError (e : Error)
| ThrownValue (s : string).

(** [err instanceof Error ? err : new Error(String(err))] *)
Definition as_error (t : thrown) : Error :=
  match t with
  | ThrownError e => e
  | ThrownValue s => mkError s
  end.

(** How an awaited promise settles. *)
Inductive outcome (A : Type) :=
| Resolved (a : A)
| Rejected (t : thrown).
Arguments Resolved {A} a.
Arguments Rejected {A} t.

(** How an [async] method settles towards its caller. *)
Inductive completion (A : Type) :=
| Fulfilled (a : A)
| Failed (t : thrown).
Arguments Fulfilled {A} a.
Arguments Failed {A} t.

(** ** The remote document store *)

(** The query options object built by [fetch_data]. *)
Record options := mkOptions {
  o_page : option Z;
  o_filter : option string;
  o_sort : option string;
  o_expand : option string;
  o_fields : option string;
  o_perPage : option Z
}.

(** [ListResult<RecordType>] *)
Record list_result := mkList {
  items : list record;
  r_totalPages : Z;
  r_totalItems : Z
}.

(** Calls on [pb.collection(name)], as the client receives them. *)
Inductive call :=
| GetList (coll : string) (page perPage : Z) (opts : options)
| GetOne (coll : string) (id : string) (opts : options)
| Create (coll : string) (body : record)
| Update (coll : string) (id : jsval) (body : record)
| Delete (coll : string) (id : string)
| Subscribe (coll : string) (topic : jsval)
| Unsubscribe (coll : string) (topic : jsval)
| AuthWithPassword (coll : string) (email password : string).

(** What a settled remote call hands back to the awaiting continuation. *)
Inductive response :=
| RList (r : list_result)
| ROne (r : record)
| RUnit.

(** A live event: [RecordSubscription<RecordType>]. *)
Record event := mkEvent { action : string; ev_record : record }.

(** [fields.join(',')] *)
Fixpoint join (sep : string) (l : list string) : string :=
  match l with
  | [] => ""
  | [x] => x
  | x :: rest => x +:+ sep +:+ join sep rest
  end.

(** ** The world of one adapter instance *)

Section World.
Context {S F : Type}.

(** [st]: the fields of the object.  [pending]: the continuations of
    remote calls in flight, oldest first.  [log]: every remote call issued
    so far.  [subs]: the topics of the callbacks this adapter has on the
    live channel; the client is shared, and what other users of it take
    off the channel is a step of the adapters' shared loops.  [raised]:
    the rejections handed to the callers of the methods.  [console]: what
    was written to the console. *)
Record world := World {
  st : S;
  pending : list F;
  log : list call;
  subs : list jsval;
  raised : list thrown;
  console : list string
}.

Definition upd (f : S -> S) (w : world) : world :=
  World (f (st w)) (pending w) (log w) (subs w) (raised w) (console w).

(** Issue remote call [c] and suspend until it settles; [k] resumes. *)
Definition await (c : call) (k : F) (w : world) : world :=
  World (st w) (pending w ++ [k]) (log w ++ [c]) (subs w) (raised w) (console w).

(** Suspend on a promise that involves no remote call. *)
Definition suspend (k : F) (w : world) : world :=
  World (st w) (pending w ++ [k]) (log w) (subs w) (raised w) (console w).

(** Issue remote call [c] without waiting for it. *)
Definition emit (c : call) (w : world) : world :=
  World (st w) (pending w) (log w ++ [c]) (subs w) (raised w) (console w).

Definition set_subs (l : list jsval) (w : world) : world :=
  World (st w) (pending w) (log w) l (raised w) (console w).

(** The promise a caller holds is rejected with [err]. *)
Definition raise (err : thrown) (w : world) : world :=
  World (st w) (pending w) (log w) (subs w) (raised w ++ [err]) (console w).

(** [console.error(msg, ...)] *)
Definition print (msg : string) (w : world) : world :=
  World (st w) (pending w) (log w) (subs w) (raised w) (console w ++ [msg]).

(** Take the [i]-th pending continuation out of the world. *)
Definition take (i : nat) (w : world) : option (F * world) :=
  match pending w !! i with
  | Some k =>
      Some (k, World (st w) (delete i (pending w)) (log w) (subs w)
                     (raised w) (console w))
  | None => None
  end.

(** Hand the completion of a method to its caller. *)
Definition settle {A} (wc : world * option (completion A)) : world :=
  match wc.2 with
  | Some (Failed err) => raise err wc.1
  | _ => wc.1
  end.
End World.
Arguments world : clear implicits.
Arguments World {S F} st pending log subs raised console.

(** The outcome of a remote call, read at the type its continuation awaits. *)
Definition as_list (o : outcome response) : option (outcome list_result) :=
  match o with
  | Resolved (RList r) => Some (Resolved r)
  | Rejected err => Some (Rejected err)
  | _ => None
  end.

Definition as_one (o : outcome response) : option (outcome record) :=
  match o with
  | Resolved (ROne r) => Some (Resolved r)
  | Rejected err => Some (Rejected err)
  | _ => None
  end.

Definition as_unit (o : outcome response) : option (outcome unit) :=
  match o with
  | Resolved RUnit => Some (Resolved ())
  | Rejected err => Some (Rejected err)
  | _ => None
  end.

(** [fold] of an optional step function over a list of labels. *)
Fixpoint run_steps {L W : Type} (step : L -> W -> option W) (tr : list L) (w : W)
  : option W :=
  match tr with
  | [] => Some w
  | l :: rest =>
      match step l w with
      | Some w' => run_steps step rest w'
      | None => None
      end
  end.

(** [() => pb.collection(name).unsubscribe(topic)]: the callbacks left on the
    live channel after a teardown closure has run.  Without a topic every
    callback of the collection goes. *)
Definition unregister (c : call) (l : list jsval) : list jsval :=
  match c with
  | Unsubscribe _ None => []
  | Unsubscribe _ t => filter (fun t' => t' ≠ t) l
  | _ => l
  end.

(** * CollectionState *)

Module CollectionState.

(** The repository holds two copies of the class.  They agree on
    [fetch_data], [getById] and the pagination methods and differ in how a
    live event and a local mutation reach the snapshot. *)
Inductive impl :=
| PatchInPlace      (* the copy that patches [this.data] *)
| RefetchOnChange.  (* src/lib/data/collection.svelte.ts *)

(** The readonly fields set by the constructor. *)
Record config := mkConfig {
  collectionName : string;
  filterQuery : option string;
  sortQuery : option string;
  expandQuery : option string;
  fieldsQuery : option (list string);
  pageSizeValue : option Z;
  listen : bool
}.

(** The mutable fields.  [unsubscribe] holds the teardown closure, given
    by the call it makes.  The page counters are whole numbers, as the
    store reports them; a caller that hands [goToPage] a fraction is
    outside this model. *)
Record state := mkState {
  data : cell (list record);
  loading : bool;
  error : option Error;
  unsubscribe : option call;
  page : Z;
  totalPages : Z;
  totalItems : Z
}.

Definition set_data v (s : state) :=
  mkState v (loading s) (error s) (unsubscribe s) (page s) (totalPages s) (totalItems s).
Definition set_loading v (s : state) :=
  mkState (data s) v (error s) (unsubscribe s) (page s) (totalPages s) (totalItems s).
Definition set_error v (s : state) :=
  mkState (data s) (loading s) v (unsubscribe s) (page s) (totalPages s) (totalItems s).
Definition set_unsubscribe v (s : state) :=
  mkState (data s) (loading s) (error s) v (page s) (totalPages s) (totalItems s).
Definition set_page v (s : state) :=
  mkState (data s) (loading s) (error s) (unsubscribe s) v (totalPages s) (totalItems s).
Definition set_totalPages v (s : state) :=
  mkState (data s) (loading s) (error s) (unsubscribe s) (page s) v (totalItems s).
Definition set_totalItems v (s : state) :=
  mkState (data s) (loading s) (error s) (unsubscribe s) (page s) (totalPages s) v.

(** What an [async] method of the class returns. *)
Inductive result :=
| RetTrue                 (* remove *)
| RetRecord (r : record). (* add, update *)

(** What runs once [fetch_data] has settled. *)
Inductive after_fetch :=
| Done                      (* nothing, or only the caller's [await] *)
| ThenSubscribe             (* the [.then] callback of [subscribe_to_data] *)
| ThenReturn (r : result).  (* the rest of add/update/remove that refetch *)

(** The continuations of the class, one per [await]. *)
Inductive frame :=
| KInit                     (* start: await this.initPromise *)
| KFetch (t : after_fetch)  (* fetch_data: await getList *)
| KAdd                      (* add: await create *)
| KUpdate (id : string)     (* update: await update *)
| KRemove (id : string).    (* remove: await delete *)

Abbreviation world := (world state frame).

(** The constructor: [$state] initialisers and [WritableState(undefined)]. *)
Definition init : world :=
  World (mkState Undefined false None None 1 1 0) [] [] [] [] [].

Section Methods.
Variable v : impl.
Variable cfg : config.

Definition keep_truthy (o : option string) : option string :=
  if truthy_str o then o else None.

Definition truthy_num (o : option Z) : bool :=
  match o with
  | Some n => negb (n =? 0)
  | None => false
  end.

(** The [options] object of [fetch_data]. *)
Definition fetch_options (s : state) : options :=
  mkOptions (Some (page s))
            (keep_truthy (filterQuery cfg))
            (keep_truthy (sortQuery cfg))
            (keep_truthy (expandQuery cfg))
            (join "," <$> fieldsQuery cfg)
            (if truthy_num (pageSizeValue cfg) then pageSizeValue cfg else None).

(** [getList(this.page, this.pageSizeValue || 50, options)] *)
Definition fetch_call (s : state) : call :=
  GetList (collectionName cfg) (page s)
          (if truthy_num (pageSizeValue cfg) then default 50 (pageSizeValue cfg) else 50)
          (fetch_options s).

(** [fetch_data], up to [await getList]. *)
Definition fetch_data (t : after_fetch) (w : world) : world :=
  let w := upd (set_loading true) w in
  let w := upd (set_error None) w in
  await (fetch_call (st w)) (KFetch t) w.

(** [fetch_data], from the settled [getList] through [finally]. *)
Definition fetch_data_resume (o : outcome list_result) (w : world) : world :=
  let w :=
    match o with
    | Resolved r =>
        let w := upd (set_data (Val (items r))) w in
        let w := upd (set_totalPages (r_totalPages r)) w in
        upd (set_totalItems (r_totalItems r)) w
    | Rejected err =>
        let w := upd (set_error (Some (as_error err))) w in
        upd (set_data (Val [])) w
    end in
  upd (set_loading false) w.

(** The topic of the live channel. *)
Definition topic : jsval :=
  match v with
  | PatchInPlace =>
      Some (VStr (if truthy_str (filterQuery cfg)
                  then default "*" (filterQuery cfg) else "*"))
  | RefetchOnChange => Some (VStr "*")
  end.

(** [subscribe_to_data], up to the [.then]. *)
Definition subscribe_to_data (w : world) : world :=
  match unsubscribe (st w) with
  | Some _ => w
  | None => fetch_data ThenSubscribe w
  end.

(** The [.then] callback of [subscribe_to_data]; [throws] is what the
    client's [subscribe] throws, if it does. *)
Definition subscribe_then (throws : option thrown) (w : world) : world :=
  let w := emit (Subscribe (collectionName cfg) topic) w in
  match throws with
  | None =>
      let w := set_subs (subs w ++ [topic]) w in
      upd (set_unsubscribe (Some (Unsubscribe (collectionName cfg) None))) w
  | Some err => upd (set_error (Some (as_error err))) w
  end.

(** The snapshot as a list; an unset snapshot counts as empty, as in
    [if (!this.data) this.data = []]. *)
Definition snapshot (s : state) : list record :=
  match data s with
  | Val l => l
  | _ => []
  end.

(** [(item) => item.id === r.id ? r : item] *)
Definition replace_by (r : record) (item : record) : record :=
  if decide (id_of item = id_of r) then r else item.

(** [(item) => item.id !== r.id] *)
Definition other_than (r : record) (item : record) : Prop :=
  id_of item ≠ id_of r.

(** The callback handed to [subscribe] by the patch-in-place copy. *)
Definition patch_event (ev : event) (s : state) : state :=
  let s := if truthy (data s) then s else set_data (Val []) s in
  let r := ev_record ev in
  if String.eqb (action ev) "create" then
    set_data (Val (snapshot s ++ [r])) s
  else if String.eqb (action ev) "update" then
    set_data (Val (replace_by r <$> snapshot s)) s
  else if String.eqb (action ev) "delete" then
    set_data (Val (filter (other_than r) (snapshot s))) s
  else s.

(** The callback handed to [subscribe]. *)
Definition on_event (ev : event) (w : world) : world :=
  match v with
  | PatchInPlace => upd (patch_event ev) w
  | RefetchOnChange => fetch_data Done w
  end.

(** [getById] *)
Definition getById (id : string) (s : state) : option record :=
  match data s with
  | Val l => find (fun r => bool_decide (id_of r = Some (VStr id))) l
  | _ => None
  end.

(** The snapshot after a local mutation, in the patch-in-place copy:
    [if (!this.listen && this.data) this.data = f(this.data)]. *)
Definition optimistic (f : list record -> list record) (s : state) : state :=
  match data s with
  | Val l => if negb (listen cfg) then set_data (Val (f l)) s else s
  | _ => s
  end.

(** What add/update/remove do between the settled mutation and their
    [return]: patch the snapshot and return, or refetch and return later. *)
Definition after_mutation (f : list record -> list record) (r : result) (w : world)
  : world * option (completion result) :=
  match v with
  | PatchInPlace =>
      let w := upd (optimistic f) w in
      (upd (set_loading false) w, Some (Fulfilled r))
  | RefetchOnChange =>
      if negb (listen cfg)
      then (fetch_data (ThenReturn r) w, None)
      else (upd (set_loading false) w, Some (Fulfilled r))
  end.

(** [catch (err) { this.error = ...; throw this.error } finally { ... }] *)
Definition mutation_failed (err : thrown) (w : world)
  : world * option (completion result) :=
  let w := upd (set_error (Some (as_error err))) w in
  (upd (set_loading false) w, Some (Failed (ThrownError (as_error err)))).

(** [add], up to [await create]. *)
Definition add (body : record) (w : world) : world :=
  let w := upd (set_loading true) w in
  let w := upd (set_error None) w in
  await (Create (collectionName cfg) body) KAdd w.

Definition add_resume (o : outcome record) (w : world)
  : world * option (completion result) :=
  match o with
  | Resolved r => after_mutation (fun l => l ++ [r]) (RetRecord r) w
  | Rejected err => mutation_failed err w
  end.

(** [update], up to [await update]. *)
Definition update (id : string) (body : record) (w : world) : world :=
  let w := upd (set_loading true) w in
  let w := upd (set_error None) w in
  await (Update (collectionName cfg) (Some (VStr id)) body) (KUpdate id) w.

(** [{ ...item, ...record }]: the fields of [r] win. *)
Definition merge_into (id : string) (r : record) (l : list record) : list record :=
  (fun item => if decide (id_of item = Some (VStr id)) then r ∪ item else item) <$> l.

Definition update_resume (id : string) (o : outcome record) (w : world)
  : world * option (completion result) :=
  match o with
  | Resolved r => after_mutation (merge_into id r) (RetRecord r) w
  | Rejected err => mutation_failed err w
  end.

(** [remove], up to [await delete]. *)
Definition remove (id : string) (w : world) : world :=
  let w := upd (set_loading true) w in
  let w := upd (set_error None) w in
  await (Delete (collectionName cfg) id) (KRemove id) w.

Definition remove_resume (id : string) (o : outcome unit) (w : world)
  : world * option (completion result) :=
  match o with
  | Resolved _ =>
      after_mutation (filter (fun item => id_of item ≠ Some (VStr id))) RetTrue w
  | Rejected err => mutation_failed err w
  end.

(** The rest of add/update/remove once their refetch has settled:
    [return record] and the [finally] block. *)
Definition return_after_fetch (r : result) (o : outcome list_result) (w : world)
  : world * option (completion result) :=
  let w := fetch_data_resume o w in
  (upd (set_loading false) w, Some (Fulfilled r)).

(** Pagination. *)
Definition nextPage (w : world) : world :=
  if page (st w) <? totalPages (st w)
  then fetch_data Done (upd (set_page (page (st w) + 1)) w)
  else w.

Definition prevPage (w : world) : world :=
  if 1 <? page (st w)
  then fetch_data Done (upd (set_page (page (st w) - 1)) w)
  else w.

Definition goToPage (p : Z) (w : world) : world :=
  if (1 <=? p) && (p <=? totalPages (st w))
  then fetch_data Done (upd (set_page p) w)
  else w.

(** [PocketBaseState.start], up to [await this.initPromise]. *)
Definition start (w : world) : world := suspend KInit w.

Definition start_resume (w : world) : world :=
  if listen cfg then subscribe_to_data w else fetch_data Done w.

(** [PocketBaseState.stop] *)
Definition stop (w : world) : world :=
  match unsubscribe (st w) with
  | Some c =>
      let w := set_subs (unregister c (subs w)) (emit c w) in
      upd (set_unsubscribe None) w
  | None => w
  end.

(** [PocketBaseState.refetch] *)
Definition refetch (w : world) : world := fetch_data Done w.

(** ** The event loop

    The steps are the calls of the class's methods, the settling of its
    remote calls and the delivery of live events; assignments from outside
    to its public fields are not among them. *)

Inductive label :=
| CallStart
| CallStop
| CallRefetch
| CallAdd (body : record)
| CallUpdate (id : string) (body : record)
| CallRemove (id : string)
| CallNextPage
| CallPrevPage
| CallGoToPage (p : Z)
| Settle (i : nat) (o : outcome response) (throws : option thrown)
| Deliver (i : nat) (ev : event).

(** Resume continuation [k] with the outcome [o] of its remote call;
    [None] when the outcome has the wrong shape for [k]. *)
Definition resume (k : frame) (o : outcome response) (throws : option thrown)
           (w : world) : option world :=
  match k with
  | KInit =>
      match o with
      | Resolved RUnit => Some (start_resume w)
      | _ => None
      end
  | KFetch Done => o' ← as_list o; Some (fetch_data_resume o' w)
  | KFetch ThenSubscribe =>
      o' ← as_list o; Some (subscribe_then throws (fetch_data_resume o' w))
  | KFetch (ThenReturn r) => o' ← as_list o; Some (settle (return_after_fetch r o' w))
  | KAdd => o' ← as_one o; Some (settle (add_resume o' w))
  | KUpdate id => o' ← as_one o; Some (settle (update_resume id o' w))
  | KRemove id => o' ← as_unit o; Some (settle (remove_resume id o' w))
  end.

Definition step (l : label) (w : world) : option world :=
  match l with
  | CallStart => Some (start w)
  | CallStop => Some (stop w)
  | CallRefetch => Some (refetch w)
  | CallAdd body => Some (add body w)
  | CallUpdate id body => Some (update id body w)
  | CallRemove id => Some (remove id w)
  | CallNextPage => Some (nextPage w)
  | CallPrevPage => Some (prevPage w)
  | CallGoToPage p => Some (goToPage p w)
  | Settle i o throws =>
      match take i w with
      | Some (k, w') => resume k o throws w'
      | None => None
      end
  | Deliver i ev =>
      match subs w !! i with
      | Some _ => Some (on_event ev w)
      | None => None
      end
  end.

Definition run (tr : list label) : option world := run_steps step tr init.

(** The worlds the object can be in. *)
Definition reachable (w : world) : Prop := ∃ tr, run tr = Some w.

End Methods.

(** Continuations that go on to open the live channel. *)
Definition subscribing (k : frame) : bool :=
  match k with
  | KFetch ThenSubscribe => true
  | _ => false
  end.

(** No live channel is open and none is about to be. *)
Definition quiet (w : world) : Prop :=
  unsubscribe (st w) = None ∧ subs w = [] ∧
  Forall (λ k, subscribing k = false) (pending w).

(** ** What every reachable collection adapter satisfies *)

(** The test of [getById]: [item.id === id]. *)
Abbreviation has_id id r := (id_of r = Some (VStr id)).

(** Continuations that wait for the store: all but the wait for
    [initPromise]. *)
Definition in_flight (k : frame) : bool :=
  match k with
  | KInit => false
  | _ => true
  end.

(** The remote calls the class can issue: list queries with a page size
    other than 0 that name their page in the options as well, mutations of
    the configured collection, and the live channel on the adapter's topic,
    closed without a topic; the live channel only when [listen] is set. *)
Definition expected_call (v : impl) (cfg : config) (c : call) : Prop :=
  match c with
  | GetList coll p size o =>
      coll = collectionName cfg ∧ size ≠ 0 ∧ o_page o = Some p
  | Create coll _ | Update coll _ _ | Delete coll _ => coll = collectionName cfg
  | Subscribe coll t => coll = collectionName cfg ∧ t = topic v cfg ∧ listen cfg = true
  | Unsubscribe coll t => coll = collectionName cfg ∧ t = None ∧ listen cfg = true
  | GetOne _ _ _ | AuthWithPassword _ _ _ => False
  end.

(** A teardown closure that is held closes the collection's channels, and
    without one the adapter has no callback on the live channel.  The
    converse is not the adapter's to keep: the client is shared, and another
    user of it can take the callbacks away while the closure is held. *)
Definition tidy (cfg : config) (w : world) : Prop :=
  match unsubscribe (st w) with
  | Some c => c = Unsubscribe (collectionName cfg) None ∧ listen cfg = true
  | None => subs w = []
  end.

Definition steady (v : impl) (cfg : config) (w : world) : Prop :=
  data (st w) ≠ Null ∧
  tidy cfg w ∧
  Forall (expected_call v cfg) (log w) ∧
  (listen cfg = false → Forall (λ k, subscribing k = false) (pending w)).

(** With no call in flight the [loading] flag is down. *)
Definition settled (w : world) : Prop :=
  Forall (λ k, in_flight k = false) (pending w) → loading (st w) = false.

Definition sound (v : impl) (cfg : config) (w : world) : Prop :=
  steady v cfg w ∧ settled w.

(** ** Beside other users of the client

    The client [pb] is handed to the constructor and shared.  Another user
    of it may call [unsubscribe] on the same collection, for one topic or
    for all, and so take this adapter's callbacks off the live channel; the
    adapter's fields and its own calls are out of that user's reach. *)
Inductive shared_label :=
| Own (l : label)       (* a step of the adapter's own event loop *)
| Foreign (t : jsval).  (* pb.collection(name).unsubscribe(t), called elsewhere *)

Definition foreign_unsubscribe (cfg : config) (t : jsval) (w : world) : world :=
  set_subs (unregister (Unsubscribe (collectionName cfg) t) (subs w)) w.

Definition shared_step (v : impl) (cfg : config) (l : shared_label) (w : world)
  : option world :=
  match l with
  | Own l => step v cfg l w
  | Foreign t => Some (foreign_unsubscribe cfg t w)
  end.

Definition shared_run (v : impl) (cfg : config) (tr : list shared_label) : option world :=
  run_steps (shared_step v cfg) tr init.

Definition shared_reachable (v : impl) (cfg : config) (w : world) : Prop :=
  ∃ tr, shared_run v cfg tr = Some w.

End CollectionState.

(** * RecordState *)

Module RecordState.

Record config := mkConfig {
  collectionName : string;
  recordId : option string;
  filterQuery : option string;
  expandQuery : option string;
  fieldsQuery : option (list string);
  autosaveEnabled : bool;
  listen : bool
}.

(** The mutable fields; [data] is [this.dataState.value]. *)
Record state := mkState {
  data : cell record;
  loading : bool;
  error : option Error;
  unsubscribe : option call
}.

(** [this.dataState.value = v] *)
Definition set_value v (s : state) :=
  mkState v (loading s) (error s) (unsubscribe s).
Definition set_loading v (s : state) :=
  mkState (data s) v (error s) (unsubscribe s).
Definition set_error v (s : state) :=
  mkState (data s) (loading s) v (unsubscribe s).
Definition set_unsubscribe v (s : state) :=
  mkState (data s) (loading s) (error s) v.

Inductive after_fetch :=
| Done            (* nothing, or only the caller's [await] *)
| ThenSubscribe.  (* the [.then] callback of [subscribe_to_data] *)

(** Who holds the promise of a [save()]. *)
Inductive origin :=
| ByCaller     (* [save()], or [return this.save()] in [updateField] *)
| ByAutosave.  (* the setter, which attaches [.catch] *)

Inductive frame :=
| KInit                        (* start: await this.initPromise *)
| KGetOne (t : after_fetch)    (* fetch_data: await getOne *)
| KGetList (t : after_fetch)   (* fetch_data: await getList *)
| KThen                        (* [.then] on a fetch that made no call *)
| KSave (who : origin).        (* save: await update *)

Abbreviation world := (world state frame).

Definition init : world :=
  World (mkState Undefined false None None) [] [] [] [] [].

Section Methods.
Variable cfg : config.

Definition keep_truthy (o : option string) : option string :=
  if truthy_str o then o else None.

(** The [options] object of [fetch_data]. *)
Definition fetch_options : options :=
  mkOptions None None None (keep_truthy (expandQuery cfg))
            (join "," <$> fieldsQuery cfg) None.

(** [{ filter: this.filterQuery, ...options }] *)
Definition list_options : options :=
  mkOptions None (filterQuery cfg) None (keep_truthy (expandQuery cfg))
            (join "," <$> fieldsQuery cfg) None.

(** [const { id: _, created, updated, collectionId, collectionName,
    ...updateData } = this.data] *)
Definition strip (r : record) : record :=
  delete "collectionName"
    (delete "collectionId" (delete "updated" (delete "created" (delete "id" r)))).

(** The fields that [save] leaves out. *)
Definition reserved : list string :=
  ["id"; "created"; "updated"; "collectionId"; "collectionName"].

(** [save], up to [await update]; completes at once when there is no
    snapshot. *)
Definition save (who : origin) (w : world) : world * option (completion (cell record)) :=
  match data (st w) with
  | Val r =>
      let w := upd (set_loading true) w in
      let w := upd (set_error None) w in
      (await (Update (collectionName cfg) (id_of r) (strip r)) (KSave who) w, None)
  | _ => (w, Some (Fulfilled Null))
  end.

(** The setter [set data(value)]. *)
Definition set_data (value : cell record) (w : world) : world :=
  let w := upd (set_value value) w in
  if autosaveEnabled cfg && truthy value
  then (save ByAutosave w).1
  else w.

(** [save], from the settled [update] through [finally]. *)
Definition save_resume (o : outcome record) (w : world)
  : world * option (completion (cell record)) :=
  match o with
  | Resolved r =>
      let w := if negb (listen cfg) then set_data (Val r) w else w in
      (upd (set_loading false) w, Some (Fulfilled (Val r)))
  | Rejected err =>
      let w := upd (set_error (Some (as_error err))) w in
      (upd (set_loading false) w, Some (Failed (ThrownError (as_error err))))
  end.

(** [.catch((err) => { console.error('Autosave failed:', err) })] *)
Definition autosave_catch (wc : world * option (completion (cell record))) : world :=
  match wc.2 with
  | Some (Failed _) => print "Autosave failed:" wc.1
  | _ => wc.1
  end.

(** [fetch_data], up to the [await]; without identifier and filter it
    completes at once and its [.then] callback waits for the next tick. *)
Definition fetch_data (t : after_fetch) (w : world) : world :=
  let w := upd (set_loading true) w in
  let w := upd (set_error None) w in
  if truthy_str (recordId cfg) then
    await (GetOne (collectionName cfg) (default "" (recordId cfg)) fetch_options)
          (KGetOne t) w
  else if truthy_str (filterQuery cfg) then
    await (GetList (collectionName cfg) 1 1 list_options) (KGetList t) w
  else
    let w := set_data Null w in
    let w := upd (set_loading false) w in
    match t with
    | Done => w
    | ThenSubscribe => suspend KThen w
    end.

(** [catch (err) { this.error = ...; this.data = null }] *)
Definition fetch_failed (err : thrown) (w : world) : world :=
  let w := upd (set_error (Some (as_error err))) w in
  set_data Null w.

(** [fetch_data], from the settled [getOne] through [finally]. *)
Definition fetch_one_resume (o : outcome record) (w : world) : world :=
  let w :=
    match o with
    | Resolved r => set_data (Val r) w
    | Rejected err => fetch_failed err w
    end in
  upd (set_loading false) w.

(** [fetch_data], from the settled [getList] through [finally]. *)
Definition fetch_list_resume (o : outcome list_result) (w : world) : world :=
  let w :=
    match o with
    | Resolved r =>
        match items r with
        | [] => set_data Null w
        | first :: _ => set_data (Val first) w
        end
    | Rejected err => fetch_failed err w
    end in
  upd (set_loading false) w.

(** [subscribe_to_data], up to the [.then]. *)
Definition subscribe_to_data (w : world) : world :=
  match unsubscribe (st w) with
  | Some _ => w
  | None => fetch_data ThenSubscribe w
  end.

(** [this.data?.id || this.recordId] *)
Definition channel_id (s : state) : jsval :=
  let i := match data s with Val r => id_of r | _ => None end in
  if truthy_val i then i else VStr <$> recordId cfg.

(** The [.then] callback of [subscribe_to_data]. *)
Definition subscribe_then (throws : option thrown) (w : world) : world :=
  let id := channel_id (st w) in
  if negb (truthy_val id) then w
  else
    let w := emit (Subscribe (collectionName cfg) id) w in
    match throws with
    | None =>
        let w := set_subs (subs w ++ [id]) w in
        upd (set_unsubscribe (Some (Unsubscribe (collectionName cfg) id))) w
    | Some err => upd (set_error (Some (as_error err))) w
    end.

(** The callback handed to [subscribe]. *)
Definition on_event (ev : event) (w : world) : world :=
  if String.eqb (action ev) "update" then set_data (Val (ev_record ev)) w
  else if String.eqb (action ev) "delete" then set_data Null w
  else w.

(** [updateField]; [{ ...this.data, [field]: value }] is an insert. *)
Definition updateField (field : string) (value : value) (w : world)
  : world * option (completion (cell record)) :=
  match data (st w) with
  | Val r =>
      let w := set_data (Val (<[field := value]> r)) w in
      if negb (autosaveEnabled cfg) then save ByCaller w
      else (w, Some (Fulfilled (data (st w))))
  | _ => (w, Some (Fulfilled Null))
  end.

(** [PocketBaseState.start], up to [await this.initPromise]. *)
Definition start (w : world) : world := suspend KInit w.

Definition start_resume (w : world) : world :=
  if listen cfg then subscribe_to_data w else fetch_data Done w.

(** [PocketBaseState.stop] *)
Definition stop (w : world) : world :=
  match unsubscribe (st w) with
  | Some c =>
      let w := set_subs (unregister c (subs w)) (emit c w) in
      upd (set_unsubscribe None) w
  | None => w
  end.

(** [PocketBaseState.refetch] *)
Definition refetch (w : world) : world := fetch_data Done w.

(** ** The event loop *)

Inductive label :=
| CallStart
| CallStop
| CallRefetch
| CallSave
| CallUpdateField (field : string) (value : value)
| Assign (value : cell record)
| Settle (i : nat) (o : outcome response) (throws : option thrown)
| Deliver (i : nat) (ev : event).

Definition and_then (t : after_fetch) (throws : option thrown) (w : world) : world :=
  match t with
  | Done => w
  | ThenSubscribe => subscribe_then throws w
  end.

Definition resume (k : frame) (o : outcome response) (throws : option thrown)
           (w : world) : option world :=
  match k with
  | KInit =>
      match o with
      | Resolved RUnit => Some (start_resume w)
      | _ => None
      end
  | KThen =>
      match o with
      | Resolved RUnit => Some (subscribe_then throws w)
      | _ => None
      end
  | KGetOne t => o' ← as_one o; Some (and_then t throws (fetch_one_resume o' w))
  | KGetList t => o' ← as_list o; Some (and_then t throws (fetch_list_resume o' w))
  | KSave ByCaller => o' ← as_one o; Some (settle (save_resume o' w))
  | KSave ByAutosave => o' ← as_one o; Some (autosave_catch (save_resume o' w))
  end.

Definition step (l : label) (w : world) : option world :=
  match l with
  | CallStart => Some (start w)
  | CallStop => Some (stop w)
  | CallRefetch => Some (refetch w)
  | CallSave => Some (settle (save ByCaller w))
  | CallUpdateField field value => Some (settle (updateField field value w))
  | Assign value => Some (set_data value w)
  | Settle i o throws =>
      match take i w with
      | Some (k, w') => resume k o throws w'
      | None => None
      end
  | Deliver i ev =>
      match subs w !! i with
      | Some _ => Some (on_event ev w)
      | None => None
      end
  end.

Definition run (tr : list label) : option world := run_steps step tr init.

Definition reachable (w : world) : Prop := ∃ tr, run tr = Some w.

End Methods.

(** Continuations that go on to open the live channel. *)
Definition subscribing (k : frame) : bool :=
  match k with
  | KGetOne ThenSubscribe | KGetList ThenSubscribe | KThen => true
  | _ => false
  end.

(** No live channel is open and none is about to be. *)
Definition quiet (w : world) : Prop :=
  unsubscribe (st w) = None ∧ subs w = [] ∧
  Forall (λ k, subscribing k = false) (pending w).

(** The calls that [save] makes. *)
Definition is_save (c : call) : bool :=
  match c with
  | Update _ _ _ => true
  | _ => false
  end.

Abbreviation no_save l := (Forall (λ c, is_save c = false) l).

(** [w'] has the snapshot of [w] and has issued no save since. *)
Definition passive (w w' : world) : Prop :=
  data (st w') = data (st w) ∧ ∃ post, log w' = log w ++ post ∧ no_save post.

(** Since [w] the snapshot was assigned [c] and, if [c] is a record, that
    record was saved once and nothing else was. *)
Definition assigned (cfg : config) (c : cell record) (w w' : world) : Prop :=
  data (st w') = c ∧
  match c with
  | Val r =>
      ∃ pre post,
        log w' = log w ++ pre ++ Update (collectionName cfg) (id_of r) (strip r) :: post ∧
        no_save pre ∧ no_save post
  | _ => True
  end.

(** ** What every reachable document adapter satisfies *)

(** Continuations that wait for the store: all but the wait for
    [initPromise] and the [.then] callback of a fetch that completed at
    once. *)
Definition in_flight (k : frame) : bool :=
  match k with
  | KInit | KThen => false
  | _ => true
  end.

(** The remote calls the class can issue: a fetch of the configured
    identifier, a one-record list query with the configured filter when
    there is no identifier, updates without the reserved fields, and the
    live channel on a truthy identifier when [listen] is set. *)
Definition expected_call (cfg : config) (c : call) : Prop :=
  match c with
  | GetOne coll id o =>
      coll = collectionName cfg ∧ recordId cfg = Some id ∧ id ≠ "" ∧ o_filter o = None
  | GetList coll p size o =>
      coll = collectionName cfg ∧ p = 1 ∧ size = 1 ∧
      o_filter o = filterQuery cfg ∧ truthy_str (filterQuery cfg) = true ∧
      truthy_str (recordId cfg) = false
  | Update coll _ body => coll = collectionName cfg ∧ ∀ k, k ∈ reserved → body !! k = None
  | Subscribe coll t | Unsubscribe coll t =>
      coll = collectionName cfg ∧ truthy_val t = true ∧ listen cfg = true
  | Create _ _ | Delete _ _ | AuthWithPassword _ _ _ => False
  end.

(** A teardown closure that is held closes the channel of one truthy
    identifier.  Whether a callback is still registered there is not the
    adapter's to keep: the client is shared. *)
Definition tidy (cfg : config) (w : world) : Prop :=
  match unsubscribe (st w) with
  | Some c =>
      ∃ t, c = Unsubscribe (collectionName cfg) t ∧ truthy_val t = true ∧
           listen cfg = true
  | None => True
  end.

Definition steady (cfg : config) (w : world) : Prop :=
  tidy cfg w ∧
  Forall (expected_call cfg) (log w) ∧
  (listen cfg = false → Forall (λ k, subscribing k = false) (pending w)).

(** With no call in flight the [loading] flag is down. *)
Definition settled (w : world) : Prop :=
  Forall (λ k, in_flight k = false) (pending w) → loading (st w) = false.

Definition sound (cfg : config) (w : world) : Prop := steady cfg w ∧ settled w.

(** ** Beside other users of the client

    The client [pb] is shared: another user of it may call [unsubscribe] on
    the same collection, for one identifier or for all, and so take this
    adapter's callbacks off the live channel. *)
Inductive shared_label :=
| Own (l : label)       (* a step of the adapter's own event loop *)
| Foreign (t : jsval).  (* pb.collection(name).unsubscribe(t), called elsewhere *)

Definition foreign_unsubscribe (cfg : config) (t : jsval) (w : world) : world :=
  set_subs (unregister (Unsubscribe (collectionName cfg) t) (subs w)) w.

Definition shared_step (cfg : config) (l : shared_label) (w : world) : option world :=
  match l with
  | Own l => step cfg l w
  | Foreign t => Some (foreign_unsubscribe cfg t w)
  end.

Definition shared_run (cfg : config) (tr : list shared_label) : option world :=
  run_steps (shared_step cfg) tr init.

Definition shared_reachable (cfg : config) (w : world) : Prop :=
  ∃ tr, shared_run cfg tr = Some w.

End RecordState.

(** * CurrentUserState *)

Module CurrentUserState.

(** The fields of the class: the identity cell and the loading flag. *)
Record state := mkState {
  userState : cell record;
  loading : bool
}.

Definition set_loading v (s : state) := mkState (userState s) v.

(** [login], up to [await authWithPassword]. *)
Definition login (email password : string) (s : state) : state * call :=
  (set_loading true s, AuthWithPassword "users" email password).

(** [login], from the settled call: [catch (error) { throw error }] and
    the [finally] block. *)
Definition login_resume (o : outcome unit) (s : state) : state * completion unit :=
  match o with
  | Resolved _ => (set_loading false s, Fulfilled ())
  | Rejected err => (set_loading false s, Failed err)
  end.

(** ** The adapter beside the client's auth store

    What the class reads and calls of [pb.authStore]: the stored identity
    [model], the flag [isValid], [onChange] and [clear].  The class hands
    the same callback to [onChange] each time, so the number of registered
    callbacks stands for them. *)
Record session := Session {
  fields : state;
  model : option record;
  isValid : bool;
  listeners : nat;
  logins : nat;
  requests : list call;
  clears : nat;
  rejected : list thrown
}.

(** [AuthModel | null] as a value of the cell. *)
Definition of_model (m : option record) : cell record :=
  match m with
  | Some r => Val r
  | None => Null
  end.

Definition set_user (c : cell record) (s : state) : state := mkState c (loading s).

Definition with_fields (f : state → state) (a : session) : session :=
  Session (f (fields a)) (model a) (isValid a) (listeners a) (logins a)
          (requests a) (clears a) (rejected a).

(** [start] *)
Definition start (a : session) : session :=
  let a := with_fields (set_loading true) a in
  let a := with_fields (set_user (of_model (model a))) a in
  let a := with_fields (set_loading false) a in
  Session (fields a) (model a) (isValid a) (S (listeners a)) (logins a)
          (requests a) (clears a) (rejected a).

(** [stop = () => {}] *)
Definition stop (a : session) : session := a.

(** [(token, model) => { this.userState.value = model }] *)
Definition on_change (m : option record) (s : state) : state := set_user (of_model m) s.

(** [get data] *)
Definition data (a : session) : cell record := userState (fields a).

(** [get isLoggedIn] *)
Definition isLoggedIn (a : session) : bool := isValid a.

(** [login] up to its [await], beside the store. *)
Definition begin_login (email password : string) (a : session) : session :=
  let (s, c) := login email password (fields a) in
  Session s (model a) (isValid a) (listeners a) (S (logins a))
          (requests a ++ [c]) (clears a) (rejected a).

Definition failure {A} (c : completion A) : list thrown :=
  match c with
  | Fulfilled _ => []
  | Failed err => [err]
  end.

(** [login] from the settled call, when one is in flight. *)
Definition end_login (o : outcome unit) (a : session) : option session :=
  match logins a with
  | O => None
  | S n =>
      let (s, c) := login_resume o (fields a) in
      Some (Session s (model a) (isValid a) (listeners a) n
                    (requests a) (clears a) (rejected a ++ failure c))
  end.

(** [logout]; [throws] is what the store's [clear] throws, if it does.  The
    store's change reaches the class through [changed]. *)
Definition logout (throws : option thrown) (a : session) : session :=
  let a := with_fields (set_loading true) a in
  let a := Session (fields a) (model a) (isValid a) (listeners a) (logins a)
                   (requests a) (S (clears a)) (rejected a ++ option_list throws) in
  with_fields (set_loading false) a.

(** The store takes a new identity and calls every registered callback. *)
Definition changed (m : option record) (valid : bool) (a : session) : session :=
  Session (Nat.iter (listeners a) (on_change m) (fields a)) m valid (listeners a)
          (logins a) (requests a) (clears a) (rejected a).

Inductive label :=
| Attach
| Detach
| Login (email password : string)
| LoginSettled (o : outcome unit)
| Logout (throws : option thrown)
| Changed (m : option record) (valid : bool).

(** A fresh adapter beside a store that holds [m]. *)
Definition init (m : option record) (valid : bool) : session :=
  Session (mkState Undefined false) m valid 0 0 [] 0 [].

Definition step (l : label) (a : session) : option session :=
  match l with
  | Attach => Some (start a)
  | Detach => Some (stop a)
  | Login email password => Some (begin_login email password a)
  | LoginSettled o => end_login o a
  | Logout throws => Some (logout throws a)
  | Changed m valid => Some (changed m valid a)
  end.

Definition run (m : option record) (valid : bool) (tr : list label) : option session :=
  run_steps step tr (init m valid).

Definition is_attach (l : label) : bool :=
  match l with
  | Attach => true
  | _ => false
  end.

(** The cell is unset until the adapter is first attached and shows the
    store's identity from then on; [loading] is down with no login in
    flight; the only remote call is [authWithPassword] on [users]. *)
Definition consistent (a : session) : Prop :=
  match listeners a with
  | O => data a = Undefined
  | S _ => data a = of_model (model a)
  end ∧
  (logins a = 0%nat → loading (fields a) = false) ∧
  Forall (λ c, ∃ e p, c = AuthWithPassword "users" e p) (requests a).

End CurrentUserState.

(** * Sample instances

    Concrete configurations, records and worlds on which the statements
    below are exercised. *)

Module Samples.

Definition tasks : CollectionState.config :=
  CollectionState.mkConfig "tasks" None (Some "-created") None None None false.

Definition live_tasks : CollectionState.config :=
  CollectionState.mkConfig "tasks" None (Some "-created") None None None true.

Definition rec_a : record := {[ "id" := VStr "a" ]}.
Definition rec_b : record := {[ "id" := VStr "b"; "title" := VStr "B" ]}.
Definition rec_a' : record := {[ "id" := VStr "a"; "title" := VStr "A2" ]}.
Definition rec_x : record := {[ "id" := VStr "n1"; "title" := VStr "X" ]}.

Definition page_of (l : list record) (pages total : Z) : outcome response :=
  Resolved (RList (mkList l pages total)).

Definition offline : thrown := ThrownValue "offline".

(** A listening collection whose first fetch returned [rec_a; rec_b]. *)
Definition live_trace : list CollectionState.label :=
  [CollectionState.CallStart;
   CollectionState.Settle 0 (Resolved RUnit) None;
   CollectionState.Settle 0 (page_of [rec_a; rec_b] 1 2) None].

(** A plain collection whose first fetch returned [rec_a]. *)
Definition idle_trace : list CollectionState.label :=
  [CollectionState.CallStart;
   CollectionState.Settle 0 (Resolved RUnit) None;
   CollectionState.Settle 0 (page_of [rec_a] 1 1) None].

Definition sorted (p : Z) : options :=
  mkOptions (Some p) None (Some "-created") None None None.

Definition star : jsval := Some (VStr "*").

Definition live_world : CollectionState.world :=
  World (CollectionState.mkState (Val [rec_a; rec_b]) false None
           (Some (Unsubscribe "tasks" None)) 1 1 2)
        [] [GetList "tasks" 1 50 (sorted 1); Subscribe "tasks" star] [star] [] [].

Definition idle_world : CollectionState.world :=
  World (CollectionState.mkState (Val [rec_a]) false None None 1 1 1)
        [] [GetList "tasks" 1 50 (sorted 1)] [] [] [].

(** Attach, detach, attach again: [start()], [stop()], [start()], all
    before the first fetch has settled. *)
Definition race_trace : list CollectionState.label :=
  [CollectionState.CallStart;
   CollectionState.CallStop;
   CollectionState.CallStart;
   CollectionState.Settle 0 (Resolved RUnit) None;
   CollectionState.Settle 0 (Resolved RUnit) None;
   CollectionState.Settle 0 (page_of [rec_a] 1 1) None].

(** The world after [race_trace]: the first channel is open, the second
    fetch is still in flight. *)
Definition racing : CollectionState.world :=
  World (CollectionState.mkState (Val [rec_a]) false None
           (Some (Unsubscribe "tasks" None)) 1 1 1)
        [CollectionState.KFetch CollectionState.ThenSubscribe]
        [GetList "tasks" 1 50 (sorted 1); GetList "tasks" 1 50 (sorted 1);
         Subscribe "tasks" star]
        [star] [] [].

(** The world once the second fetch has settled as well. *)
Definition raced : CollectionState.world :=
  World (CollectionState.mkState (Val [rec_a]) false None
           (Some (Unsubscribe "tasks" None)) 1 1 1)
        []
        [GetList "tasks" 1 50 (sorted 1); GetList "tasks" 1 50 (sorted 1);
         Subscribe "tasks" star; Subscribe "tasks" star]
        [star; star] [] [].

(** Five pages, a jump to the last one, and a store that has shrunk to
    two pages by the time that page is fetched. *)
Definition shrink_trace : list CollectionState.label :=
  [CollectionState.CallRefetch;
   CollectionState.Settle 0 (page_of [rec_a] 5 5) None;
   CollectionState.CallGoToPage 5;
   CollectionState.Settle 0 (page_of [] 2 2) None].

Definition shrunk : CollectionState.world :=
  World (CollectionState.mkState (Val []) false None None 5 2 2)
        [] [GetList "tasks" 1 50 (sorted 1); GetList "tasks" 5 50 (sorted 5)] [] [] [].

Definition profile : RecordState.config :=
  RecordState.mkConfig "profiles" (Some "r1") None None None false false.

Definition autosaved_profile : RecordState.config :=
  RecordState.mkConfig "profiles" (Some "r1") None None None true false.

Definition live_profile : RecordState.config :=
  RecordState.mkConfig "profiles" (Some "r1") None None None false true.

Definition rec_r1 : record :=
  {[ "id" := VStr "r1"; "name" := VStr "A"; "created" := VStr "t0";
     "updated" := VStr "t0" ]}.

Definition rec_r1' : record :=
  {[ "id" := VStr "r1"; "name" := VStr "A"; "created" := VStr "t0";
     "updated" := VStr "t1" ]}.

(** [n] successful replies of the store, each to the oldest update in
    flight, each echoing the record [r]. *)
Definition replies (n : nat) (r : record) : list RecordState.label :=
  replicate n (RecordState.Settle 0 (Resolved (ROne r)) None).

(** A document adapter holding [rec_r1], nothing in flight. *)
Definition loaded : RecordState.world :=
  World (RecordState.mkState (Val rec_r1) false None None) [] [] [] [] [].

(** A listening document adapter that fetched [rec_r1], opened its live
    channel and closed it again on detach. *)
Definition detach_trace : list RecordState.label :=
  [RecordState.CallStart;
   RecordState.Settle 0 (Resolved RUnit) None;
   RecordState.Settle 0 (Resolved (ROne rec_r1)) None;
   RecordState.CallStop].

Definition detached : RecordState.world :=
  World (RecordState.mkState (Val rec_r1) false None None) []
        [GetOne "profiles" "r1" (mkOptions None None None None None None);
         Subscribe "profiles" (Some (VStr "r1"));
         Unsubscribe "profiles" (Some (VStr "r1"))]
        [] [] [].

(** A document adapter whose snapshot resolved to nothing. *)
Definition absent : RecordState.world :=
  World (RecordState.mkState Null false None None) [] [] [] [] [].


(** A listening document adapter that opened its live channel. *)
Definition attach_trace : list RecordState.label :=
  [RecordState.CallStart;
   RecordState.Settle 0 (Resolved RUnit) None;
   RecordState.Settle 0 (Resolved (ROne rec_r1)) None].

(** A document adapter that fetched [rec_r1] and was told to change the
    name while the store was out of reach. *)
Definition edit_trace : list RecordState.label :=
  [RecordState.CallRefetch;
   RecordState.Settle 0 (Resolved (ROne rec_r1)) None;
   RecordState.CallUpdateField "name" (VStr "B");
   RecordState.Settle 0 (Rejected offline) None].

(** The racing starts of [race_trace] beside another user of the client,
    who closes the collection's channels before the second subscription
    and once more after a third start has subscribed. *)
Definition crowded_trace : list CollectionState.shared_label :=
  (CollectionState.Own <$> race_trace) ++
  [CollectionState.Foreign None;
   CollectionState.Own (CollectionState.Settle 0 (page_of [rec_a] 1 1) None);
   CollectionState.Foreign (Some (VStr "other"));
   CollectionState.Own CollectionState.CallStop;
   CollectionState.Own CollectionState.CallStart;
   CollectionState.Own CollectionState.CallStart;
   CollectionState.Own (CollectionState.Settle 0 (Resolved RUnit) None);
   CollectionState.Own (CollectionState.Settle 0 (Resolved RUnit) None);
   CollectionState.Own (CollectionState.Settle 0 (page_of [rec_a] 1 1) None);
   CollectionState.Own (CollectionState.Settle 0 (page_of [rec_a] 1 1) None)].

(** The listening document adapter of [attach_trace] beside another user of
    the client, who closes every channel of the collection. *)
Definition shared_attach_trace : list RecordState.shared_label :=
  (RecordState.Own <$> attach_trace) ++ [RecordState.Foreign None].

(** A signed-in identity of the auth store. *)
Definition alice : record := {[ "id" := VStr "u1"; "email" := VStr "a@example.org" ]}.

(** Two components attach, one detaches, the user signs out. *)
Definition session_trace : list CurrentUserState.label :=
  [CurrentUserState.Attach;
   CurrentUserState.Attach;
   CurrentUserState.Detach;
   CurrentUserState.Logout None;
   CurrentUserState.Changed None false].

End Samples.

(** * Properties *)

(** ** The sample worlds are worlds of the event loop *)

Module SampleRuns.
Import CollectionState Samples.

Lemma live_world_run : run PatchInPlace live_tasks live_trace = Some live_world.
Proof. vm_compute. reflexivity. Qed.

Lemma idle_world_run : run PatchInPlace tasks idle_trace = Some idle_world.
Proof. vm_compute. reflexivity. Qed.

Lemma racing_run : run PatchInPlace live_tasks race_trace = Some racing.
Proof. vm_compute. reflexivity. Qed.

Lemma shrunk_run : run PatchInPlace tasks shrink_trace = Some shrunk.
Proof. vm_compute. reflexivity. Qed.

Lemma detached_run : RecordState.run live_profile detach_trace = Some detached.
Proof. vm_compute. reflexivity. Qed.

(** A fetched page replaces snapshot and totals. *)
Example fetch_replaces :
  st (fetch_data_resume (Resolved (mkList [rec_b] 3 7)) idle_world)
  = mkState (Val [rec_b]) false None None 1 3 7.
Proof. reflexivity. Qed.

(** [update] merges the server's record into the item it names. *)
Example update_merges :
  data (st (update_resume PatchInPlace tasks "a" (Resolved rec_a') idle_world).1)
  = Val [rec_a'].
Proof. vm_compute. reflexivity. Qed.

(** [remove] drops the item it names, and only that one. *)
Example remove_filters :
  data (st (remove_resume PatchInPlace tasks "b" (Resolved ())
              (upd (set_data (Val [rec_a; rec_b])) idle_world)).1)
  = Val [rec_a].
Proof. vm_compute. reflexivity. Qed.

Example getById_finds :
  getById "b" (st live_world) = Some rec_b ∧ getById "zz" (st live_world) = None.
Proof. vm_compute. auto. Qed.

(** A create event delivered twice is appended twice. *)
Example create_twice :
  let ev := mkEvent "create" rec_x in
  data (patch_event ev (patch_event ev (st idle_world))) = Val [rec_a; rec_x; rec_x].
Proof. vm_compute. reflexivity. Qed.

(** A listening document adapter subscribes to the identifier it fetched. *)
Example record_subscribes :
  (λ w, (RecordState.data (st w), RecordState.unsubscribe (st w), subs w, log w)) <$>
    RecordState.run live_profile
      [RecordState.CallStart;
       RecordState.Settle 0 (Resolved RUnit) None;
       RecordState.Settle 0 (Resolved (ROne rec_r1)) None]
  = Some (Val rec_r1, Some (Unsubscribe "profiles" (Some (VStr "r1"))),
          [Some (VStr "r1")],
          [GetOne "profiles" "r1" (mkOptions None None None None None None);
           Subscribe "profiles" (Some (VStr "r1"))]).
Proof. vm_compute. reflexivity. Qed.

(** A delete event empties the document snapshot. *)
Example record_deleted :
  RecordState.data (st (RecordState.on_event live_profile (mkEvent "delete" rec_r1) loaded))
  = Null.
Proof. reflexivity. Qed.

(** A failed explicit save reaches the caller; a failed autosave does not. *)
Example save_failure_routes :
  (raised <$> RecordState.run profile
     [RecordState.Assign (Val rec_r1); RecordState.CallSave;
      RecordState.Settle 0 (Rejected offline) None])
  = Some [ThrownError (mkError "offline")] ∧
  ((λ w, (raised w, console w, RecordState.error (st w))) <$>
     RecordState.run autosaved_profile
       [RecordState.Assign (Val rec_r1); RecordState.Settle 0 (Rejected offline) None])
  = Some ([], ["Autosave failed:"], Some (mkError "offline")).
Proof. vm_compute. auto. Qed.

End SampleRuns.

(** ** Helper lemmas on the live-event patch *)

Module CollectionFacts.
Import CollectionState.

Lemma patch_event_create ev s :
  action ev = "create" →
  patch_event ev s = set_data (Val (snapshot s ++ [ev_record ev])) s.
Proof.
  intros Ha. unfold patch_event, snapshot. rewrite Ha. simpl.
  destruct s as [[| |l] ? ? ? ? ? ?]; reflexivity.
Qed.

Lemma patch_event_update ev s :
  action ev = "update" →
  patch_event ev s = set_data (Val (replace_by (ev_record ev) <$> snapshot s)) s.
Proof.
  intros Ha. unfold patch_event, snapshot. rewrite Ha. simpl.
  destruct s as [[| |l] ? ? ? ? ? ?]; reflexivity.
Qed.

Lemma patch_event_delete ev s :
  action ev = "delete" →
  patch_event ev s = set_data (Val (filter (other_than (ev_record ev)) (snapshot s))) s.
Proof.
  intros Ha. unfold patch_event, snapshot. rewrite Ha. simpl.
  destruct s as [[| |l] ? ? ? ? ? ?]; reflexivity.
Qed.

Lemma snapshot_set_data l s : snapshot (set_data (Val l) s) = l.
Proof. reflexivity. Qed.

Lemma patch_event_pagination ev s :
  page (patch_event ev s) = page s ∧
  totalPages (patch_event ev s) = totalPages s ∧
  totalItems (patch_event ev s) = totalItems s.
Proof.
  unfold patch_event.
  destruct (truthy (data s)); repeat (destruct (String.eqb _ _)); simpl; auto.
Qed.

Lemma replace_by_twice r item : replace_by r (replace_by r item) = replace_by r item.
Proof.
  unfold replace_by. destruct (decide (id_of item = id_of r)) as [He|Hne].
  - rewrite decide_True; reflexivity.
  - rewrite decide_False; [reflexivity | assumption].
Qed.

Lemma replace_unmatched r (l : list record) :
  Forall (other_than r) l → replace_by r <$> l = l.
Proof.
  induction 1 as [|item l Hne _ IH]; [reflexivity|].
  rewrite fmap_cons, IH. unfold replace_by. rewrite decide_False; [reflexivity | exact Hne].
Qed.

Lemma filter_unmatched r (l : list record) :
  Forall (other_than r) l → filter (other_than r) l = l.
Proof.
  induction 1 as [|item l Hne _ IH]; [reflexivity|].
  rewrite filter_cons_True; [|exact Hne]. by rewrite IH.
Qed.

Lemma filter_twice r (l : list record) :
  filter (other_than r) (filter (other_than r) l) = filter (other_than r) l.
Proof.
  apply filter_unmatched, Forall_forall. intros item Hin.
  by apply list_elem_of_filter in Hin as [? _].
Qed.

Lemma replace_lookup r (l : list record) j item :
  l !! j = Some item → (replace_by r <$> l) !! j = Some (replace_by r item).
Proof. intros H. by rewrite list_lookup_fmap, H. Qed.

End CollectionFacts.

(** ** Only a listening adapter opens the live channel *)

Lemma run_steps_invariant {L W : Type} (step : L → W → option W) (P : W → Prop) :
  (∀ l w w', P w → step l w = Some w' → P w') →
  ∀ tr w w', P w → run_steps step tr w = Some w' → P w'.
Proof.
  intros Hstep. induction tr as [|l tr IH]; intros w w' HP Hrun; simpl in Hrun.
  - by injection Hrun as <-.
  - destruct (step l w) as [w1|] eqn:Hl; [|discriminate]. eauto.
Qed.

Lemma run_steps_app {L W : Type} (step : L → W → option W) (tr1 tr2 : list L) (w : W) :
  run_steps step (tr1 ++ tr2) w = run_steps step tr1 w ≫= run_steps step tr2.
Proof.
  revert w. induction tr1 as [|l tr1 IH]; intros w; simpl; [reflexivity|].
  destruct (step l w); [apply IH|reflexivity].
Qed.

Module CollectionInvariant.
Import CollectionState.

Section Quiet.
Variable v : impl.
Variable cfg : config.
Hypothesis not_listening : listen cfg = false.

Lemma collection_quiet_upd f w :
  (∀ s, unsubscribe (f s) = unsubscribe s) → quiet w → quiet (upd f w).
Proof. intros Hf (Hu & Hs & Hp). unfold quiet. simpl. by rewrite Hf. Qed.

Lemma collection_quiet_await c k w : subscribing k = false → quiet w → quiet (await c k w).
Proof.
  intros Hk (Hu & Hs & Hp). unfold quiet. simpl. repeat split; try done.
  apply Forall_app. split; [done|]. by constructor.
Qed.

Lemma collection_quiet_settle {A} (wc : world * option (completion A)) :
  quiet wc.1 → quiet (settle wc).
Proof. unfold settle. destruct wc as [w [[a|err]|]]; simpl; auto. Qed.

Lemma collection_quiet_fetch_data t w :
  t ≠ ThenSubscribe → quiet w → quiet (fetch_data cfg t w).
Proof.
  intros Ht Hq. unfold fetch_data. apply collection_quiet_await.
  - by destruct t.
  - by repeat apply collection_quiet_upd.
Qed.

Lemma collection_quiet_fetch_data_resume o w : quiet w → quiet (fetch_data_resume o w).
Proof.
  intros Hq. unfold fetch_data_resume. destruct o; by repeat apply collection_quiet_upd.
Qed.

Lemma collection_quiet_after_mutation f r w : quiet w → quiet (after_mutation v cfg f r w).1.
Proof.
  intros Hq. unfold after_mutation. destruct v; simpl.
  - repeat apply collection_quiet_upd; try done.
    intros s. unfold optimistic. by destruct (data s), (negb (listen cfg)).
  - rewrite not_listening. simpl. by apply collection_quiet_fetch_data.
Qed.

Lemma collection_quiet_mutation_failed err w : quiet w → quiet (mutation_failed err w).1.
Proof. intros Hq. unfold mutation_failed. simpl. by repeat apply collection_quiet_upd. Qed.

Lemma collection_quiet_take i k w w0 :
  take i w = Some (k, w0) → quiet w → subscribing k = false ∧ quiet w0.
Proof.
  unfold take. destruct (pending w !! i) as [k'|] eqn:Hi; [|discriminate].
  intros [= <- <-] (Hu & Hs & Hp). split.
  - eapply Forall_lookup_1 in Hp; eauto.
  - unfold quiet. simpl. repeat split; try done. by apply Forall_delete.
Qed.

Lemma collection_quiet_step l w w' : quiet w → step v cfg l w = Some w' → quiet w'.
Proof.
  intros Hq Hstep. destruct l; simpl in Hstep.
  - injection Hstep as <-. unfold start, suspend.
    destruct Hq as (Hu & Hs & Hp). unfold quiet. simpl. repeat split; try done.
    apply Forall_app. split; [done|]. by constructor.
  - injection Hstep as <-. unfold stop. destruct Hq as (Hu & Hs & Hp).
    by rewrite Hu.
  - injection Hstep as <-. by apply collection_quiet_fetch_data.
  - injection Hstep as <-. unfold add. apply collection_quiet_await; [done|].
    by repeat apply collection_quiet_upd.
  - injection Hstep as <-. unfold update. apply collection_quiet_await; [done|].
    by repeat apply collection_quiet_upd.
  - injection Hstep as <-. unfold remove. apply collection_quiet_await; [done|].
    by repeat apply collection_quiet_upd.
  - injection Hstep as <-. unfold nextPage.
    destruct (_ <? _); [|done]. apply collection_quiet_fetch_data; [done|]. by apply collection_quiet_upd.
  - injection Hstep as <-. unfold prevPage.
    destruct (_ <? _); [|done]. apply collection_quiet_fetch_data; [done|]. by apply collection_quiet_upd.
  - injection Hstep as <-. unfold goToPage.
    destruct (_ && _); [|done]. apply collection_quiet_fetch_data; [done|]. by apply collection_quiet_upd.
  - destruct (take i w) as [[k w0]|] eqn:Ht; [|discriminate].
    destruct (collection_quiet_take _ _ _ _ Ht Hq) as [Hk Hq0].
    destruct k as [|[| |r]|  | |]; simpl in Hstep; try discriminate.
    + destruct o as [[]|]; try discriminate. injection Hstep as <-.
      unfold start_resume. rewrite not_listening. by apply collection_quiet_fetch_data.
    + destruct (as_list o); [|discriminate]. injection Hstep as <-.
      by apply collection_quiet_fetch_data_resume.
    + destruct (as_list o); [|discriminate]. injection Hstep as <-.
      apply collection_quiet_settle. simpl. apply collection_quiet_upd; [done|].
      by apply collection_quiet_fetch_data_resume.
    + destruct (as_one o) as [[r|err]|]; [| |discriminate]; injection Hstep as <-;
        apply collection_quiet_settle; [by apply collection_quiet_after_mutation|by apply collection_quiet_mutation_failed].
    + destruct (as_one o) as [[r|err]|]; [| |discriminate]; injection Hstep as <-;
        apply collection_quiet_settle; [by apply collection_quiet_after_mutation|by apply collection_quiet_mutation_failed].
    + destruct (as_unit o) as [[r|err]|]; [| |discriminate]; injection Hstep as <-;
        apply collection_quiet_settle; [by apply collection_quiet_after_mutation|by apply collection_quiet_mutation_failed].
  - destruct Hq as (Hu & Hs & Hp). rewrite Hs in Hstep. discriminate.
Qed.

Lemma collection_reachable_quiet w : reachable v cfg w → quiet w.
Proof.
  intros [tr Hrun]. eapply (run_steps_invariant (step v cfg) quiet); [|..|exact Hrun].
  - intros l w1 w2. apply collection_quiet_step.
  - unfold quiet, init. simpl. auto.
Qed.
End Quiet.

(** An open live channel means the adapter was built with [listen]. *)
Lemma collection_subscribed_listens v cfg w :
  reachable v cfg w → is_Some (unsubscribe (st w)) → listen cfg = true.
Proof.
  intros Hr [c Hc]. destruct (listen cfg) eqn:Hl; [done|].
  destruct (collection_reachable_quiet v cfg Hl w Hr) as (Hu & _). congruence.
Qed.

End CollectionInvariant.

Module RecordInvariant.
Import RecordState.

Section Quiet.
Variable cfg : config.
Hypothesis not_listening : listen cfg = false.

Lemma record_quiet_upd f w :
  (∀ s, unsubscribe (f s) = unsubscribe s) → quiet w → quiet (upd f w).
Proof. intros Hf (Hu & Hs & Hp). unfold quiet. simpl. by rewrite Hf. Qed.

Lemma record_quiet_await c k w : subscribing k = false → quiet w → quiet (await c k w).
Proof.
  intros Hk (Hu & Hs & Hp). unfold quiet. simpl. repeat split; try done.
  apply Forall_app. split; [done|]. by constructor.
Qed.

Lemma record_quiet_suspend k w : subscribing k = false → quiet w → quiet (suspend k w).
Proof.
  intros Hk (Hu & Hs & Hp). unfold quiet. simpl. repeat split; try done.
  apply Forall_app. split; [done|]. by constructor.
Qed.

Lemma record_quiet_settle {A} (wc : world * option (completion A)) :
  quiet wc.1 → quiet (settle wc).
Proof. unfold settle. destruct wc as [w [[a|err]|]]; simpl; auto. Qed.

Lemma record_quiet_save who w : quiet w → quiet (save cfg who w).1.
Proof.
  intros Hq. unfold save. destruct (data (st w)); simpl; try done.
  apply record_quiet_await; [done|]. by repeat apply record_quiet_upd.
Qed.

Lemma record_quiet_set_data value w : quiet w → quiet (set_data cfg value w).
Proof.
  intros Hq. unfold set_data. destruct (_ && _).
  - apply record_quiet_save. by apply record_quiet_upd.
  - by apply record_quiet_upd.
Qed.

Lemma record_quiet_save_resume o w : quiet w → quiet (save_resume cfg o w).1.
Proof.
  intros Hq. unfold save_resume. destruct o; simpl.
  - apply record_quiet_upd; [done|]. destruct (negb _); [|done]. by apply record_quiet_set_data.
  - by repeat apply record_quiet_upd.
Qed.

Lemma record_quiet_fetch_data w : quiet w → quiet (fetch_data cfg Done w).
Proof.
  intros Hq. unfold fetch_data.
  destruct (truthy_str (recordId cfg)); [|destruct (truthy_str (filterQuery cfg))].
  - apply record_quiet_await; [done|]. by repeat apply record_quiet_upd.
  - apply record_quiet_await; [done|]. by repeat apply record_quiet_upd.
  - apply record_quiet_upd; [done|]. apply record_quiet_set_data. by repeat apply record_quiet_upd.
Qed.

Lemma record_quiet_fetch_failed err w : quiet w → quiet (fetch_failed cfg err w).
Proof. intros Hq. unfold fetch_failed. apply record_quiet_set_data. by apply record_quiet_upd. Qed.

Lemma record_quiet_fetch_one_resume o w : quiet w → quiet (fetch_one_resume cfg o w).
Proof.
  intros Hq. unfold fetch_one_resume. apply record_quiet_upd; [done|].
  destruct o; [by apply record_quiet_set_data | by apply record_quiet_fetch_failed].
Qed.

Lemma record_quiet_fetch_list_resume o w : quiet w → quiet (fetch_list_resume cfg o w).
Proof.
  intros Hq. unfold fetch_list_resume. apply record_quiet_upd; [done|].
  destruct o as [r|err]; [|by apply record_quiet_fetch_failed].
  destruct (items r); by apply record_quiet_set_data.
Qed.

Lemma record_quiet_updateField field value w :
  quiet w → quiet (updateField cfg field value w).1.
Proof.
  intros Hq. unfold updateField. destruct (data (st w)); simpl; try done.
  destruct (negb _); simpl.
  - apply record_quiet_save. by apply record_quiet_set_data.
  - by apply record_quiet_set_data.
Qed.

Lemma record_quiet_take i k w w0 :
  take i w = Some (k, w0) → quiet w → subscribing k = false ∧ quiet w0.
Proof.
  unfold take. destruct (pending w !! i) as [k'|] eqn:Hi; [|discriminate].
  intros [= <- <-] (Hu & Hs & Hp). split.
  - eapply Forall_lookup_1 in Hp; eauto.
  - unfold quiet. simpl. repeat split; try done. by apply Forall_delete.
Qed.

Lemma record_quiet_step l w w' : quiet w → step cfg l w = Some w' → quiet w'.
Proof.
  intros Hq Hstep. destruct l; simpl in Hstep.
  - injection Hstep as <-. by apply record_quiet_suspend.
  - injection Hstep as <-. unfold stop. destruct Hq as (Hu & Hs & Hp).
    by rewrite Hu.
  - injection Hstep as <-. by apply record_quiet_fetch_data.
  - injection Hstep as <-. by apply record_quiet_settle, record_quiet_save.
  - injection Hstep as <-. by apply record_quiet_settle, record_quiet_updateField.
  - injection Hstep as <-. by apply record_quiet_set_data.
  - destruct (take i w) as [[k w0]|] eqn:Ht; [|discriminate].
    destruct (record_quiet_take _ _ _ _ Ht Hq) as [Hk Hq0].
    destruct k as [|[|]|[|]| |[|]]; simpl in Hstep; try discriminate.
    + destruct o as [[]|]; try discriminate. injection Hstep as <-.
      unfold start_resume. rewrite not_listening. by apply record_quiet_fetch_data.
    + destruct (as_one o); [|discriminate]. injection Hstep as <-.
      by apply record_quiet_fetch_one_resume.
    + destruct (as_list o); [|discriminate]. injection Hstep as <-.
      by apply record_quiet_fetch_list_resume.
    + destruct (as_one o); [|discriminate]. injection Hstep as <-.
      by apply record_quiet_settle, record_quiet_save_resume.
    + destruct (as_one o) as [o'|]; [|discriminate]. injection Hstep as <-.
      unfold autosave_catch.
      pose proof (record_quiet_save_resume o' w0 Hq0) as Hq1.
      destruct (save_resume cfg o' w0) as [w1 [[a|err]|]]; simpl in *; done.
  - destruct Hq as (Hu & Hs & Hp). rewrite Hs in Hstep. discriminate.
Qed.

Lemma record_reachable_quiet w : reachable cfg w → quiet w.
Proof.
  intros [tr Hrun]. eapply (run_steps_invariant (step cfg) quiet); [|..|exact Hrun].
  - intros l w1 w2. apply record_quiet_step.
  - unfold quiet, init. simpl. auto.
Qed.
End Quiet.

(** An open live channel means the adapter was built with [listen]. *)
Lemma record_subscribed_listens cfg w :
  reachable cfg w → is_Some (unsubscribe (st w)) → listen cfg = true.
Proof.
  intros Hr [c Hc]. destruct (listen cfg) eqn:Hl; [done|].
  destruct (record_reachable_quiet cfg Hl w Hr) as (Hu & _). congruence.
Qed.

End RecordInvariant.

(** ** Live events on the collection snapshot *)

Module Reconciliation.
Import CollectionState CollectionFacts.

(** C9: on every collection snapshot, delivering the same update event or
    the same delete event a second time leaves the snapshot as the first
    delivery left it.  This holds of the patching callback on every state,
    and of the snapshot after the callback of either copy has run (the
    copy that refetches does not touch the snapshot on delivery). *)
Theorem duplicate_event_idempotent (v : impl) (cfg : config) (ev : event) (w : world) :
  action ev = "update" ∨ action ev = "delete" →
  patch_event ev (patch_event ev (st w)) = patch_event ev (st w) ∧
  data (st (on_event v cfg ev (on_event v cfg ev w))) = data (st (on_event v cfg ev w)).
Proof.
  intros Hact.
  assert (Hpatch : ∀ s, patch_event ev (patch_event ev s) = patch_event ev s).
  { intros s. destruct Hact as [Ha|Ha].
    - rewrite !(patch_event_update _ _ Ha). unfold set_data. simpl.
      do 2 f_equal. unfold snapshot at 1. simpl. rewrite <- list_fmap_compose.
      apply list_fmap_ext. intros _ item _. apply replace_by_twice.
    - rewrite !(patch_event_delete _ _ Ha). unfold set_data. simpl.
      do 2 f_equal. unfold snapshot at 1. simpl. apply filter_twice. }
  split; [apply Hpatch|].
  destruct v; simpl; [by rewrite Hpatch|reflexivity].
Qed.

Lemma duplicate_event_idempotent_witness :
  let ev := mkEvent "update" Samples.rec_a' in
  action ev = "update" ∧
  data (patch_event ev (patch_event ev (st Samples.live_world)))
  = Val [Samples.rec_a'; Samples.rec_b].
Proof.
  intros ev. split; [reflexivity|].
  rewrite (proj1 (duplicate_event_idempotent PatchInPlace Samples.live_tasks ev
                    Samples.live_world (or_introl eq_refl))).
  vm_compute. reflexivity.
Defined.

(** C3, as stated, fails on the copy in src/lib/data/collection.svelte.ts: a
    create event delivered to its callback issues a list query and leaves
    the snapshot without the new record. *)
Lemma refetch_copy_refetches_on_event :
  let ev := mkEvent "create" Samples.rec_x in
  run RefetchOnChange Samples.live_tasks Samples.live_trace = Some Samples.live_world ∧
  ∃ w', step RefetchOnChange Samples.live_tasks (Deliver 0 ev) Samples.live_world = Some w' ∧
        log w' = log Samples.live_world ++ [GetList "tasks" 1 50 (Samples.sorted 1)] ∧
        data (st w') = Val [Samples.rec_a; Samples.rec_b] ∧
        data (st w') ≠ Val ([Samples.rec_a; Samples.rec_b] ++ [Samples.rec_x]).
Proof.
  split; [vm_compute; reflexivity|].
  eexists. split; [reflexivity|]. split; [vm_compute; reflexivity|].
  split; [reflexivity|]. simpl. intros [=].
Qed.

(** C3, amended: in the patch-in-place copy, a live event delivered to a
    registered callback changes nothing but the snapshot: no call is
    issued, nothing is left pending, page and totals stay.  A create event
    appends the record at the end; an update event replaces, position by
    position, the items with the record's identifier and leaves the list as
    it is when none has it; a delete event keeps, in order, the items with
    another identifier and leaves the list as it is when none has it.  In
    the copy of src/lib/data/collection.svelte.ts every live event, whatever
    its action, issues one list query for the current page and leaves the
    snapshot, the page and the totals as they are until that query
    settles. *)
Theorem live_event_reconciliation
    (v : impl) (cfg : config) (i : nat) (ev : event) (w w' : world) :
  step v cfg (Deliver i ev) w = Some w' →
  let l := snapshot (st w) in
  let r := ev_record ev in
  match v with
  | PatchInPlace =>
      (log w' = log w ∧ pending w' = pending w ∧ subs w' = subs w ∧
       page (st w') = page (st w) ∧ totalPages (st w') = totalPages (st w) ∧
       totalItems (st w') = totalItems (st w)) ∧
      (action ev = "create" → data (st w') = Val (l ++ [r])) ∧
      (action ev = "update" →
         data (st w') = Val (replace_by r <$> l) ∧
         length (snapshot (st w')) = length l ∧
         (∀ j item, l !! j = Some item →
            snapshot (st w') !! j
            = Some (if decide (id_of item = id_of r) then r else item)) ∧
         (Forall (other_than r) l → snapshot (st w') = l)) ∧
      (action ev = "delete" →
         data (st w') = Val (filter (other_than r) l) ∧
         snapshot (st w') `sublist_of` l ∧
         (∀ item, item ∈ snapshot (st w') ↔ item ∈ l ∧ id_of item ≠ id_of r) ∧
         (Forall (other_than r) l → snapshot (st w') = l))
  | RefetchOnChange =>
      log w' = log w ++ [fetch_call cfg (st w)] ∧
      pending w' = pending w ++ [KFetch Done] ∧
      subs w' = subs w ∧
      data (st w') = data (st w) ∧
      page (st w') = page (st w) ∧ totalPages (st w') = totalPages (st w) ∧
      totalItems (st w') = totalItems (st w)
  end.
Proof.
  intros Hstep l r. simpl in Hstep.
  destruct (subs w !! i); [|discriminate]. injection Hstep as <-.
  destruct v; [|simpl; auto 10].
  change (on_event PatchInPlace cfg ev w) with (upd (patch_event ev) w).
  split; [|split; [|split]].
  - change (st (upd (patch_event ev) w)) with (patch_event ev (st w)).
    destruct (patch_event_pagination ev (st w)) as (? & ? & ?). auto 10.
  - intros Ha. change (st (upd (patch_event ev) w)) with (patch_event ev (st w)).
    by rewrite (patch_event_create _ _ Ha).
  - intros Ha. change (st (upd (patch_event ev) w)) with (patch_event ev (st w)).
    rewrite (patch_event_update _ _ Ha), snapshot_set_data. fold l r.
    split; [reflexivity|]. split; [by rewrite length_fmap|]. split.
    + intros j item Hj. by apply replace_lookup.
    + apply replace_unmatched.
  - intros Ha. change (st (upd (patch_event ev) w)) with (patch_event ev (st w)).
    rewrite (patch_event_delete _ _ Ha), snapshot_set_data. fold l r.
    split; [reflexivity|]. split; [apply sublist_filter|]. split.
    + intros item. rewrite list_elem_of_filter. unfold other_than. tauto.
    + apply filter_unmatched.
Qed.

Lemma live_event_reconciliation_witness :
  let ev := mkEvent "update" Samples.rec_a' in
  let w' := upd (set_data (Val [Samples.rec_a'; Samples.rec_b])) Samples.live_world in
  step PatchInPlace Samples.live_tasks (Deliver 0 ev) Samples.live_world = Some w' ∧
  log w' = log Samples.live_world ∧
  data (st w') = Val (replace_by Samples.rec_a' <$> [Samples.rec_a; Samples.rec_b]).
Proof.
  intros ev w'.
  assert (Hstep : step PatchInPlace Samples.live_tasks (Deliver 0 ev) Samples.live_world
                  = Some w') by (vm_compute; reflexivity).
  pose proof (live_event_reconciliation PatchInPlace _ _ _ _ _ Hstep) as (Hsame & _ & Hupd & _).
  split; [exact Hstep|]. split; [exact (proj1 Hsame)|].
  exact (proj1 (Hupd eq_refl)).
Defined.

End Reconciliation.

(** ** Failing fetches *)

Module FetchFailure.
Import Samples.

(** C1, as stated, fails on the document adapter: a failing fetch replaces
    the snapshot [rec_r1] by [null]. *)
Lemma record_fetch_failure_clears_snapshot :
  RecordState.data (st loaded) = Val rec_r1 ∧
  RecordState.data (st (RecordState.fetch_one_resume profile (Rejected offline) loaded))
    = Null ∧
  RecordState.data (st (RecordState.fetch_one_resume profile (Rejected offline) loaded))
    ≠ RecordState.data (st loaded) ∧
  (λ w, (RecordState.data (st w), RecordState.error (st w))) <$>
    RecordState.run profile
      [RecordState.CallRefetch;
       RecordState.Settle 0 (Resolved (ROne rec_r1)) None;
       RecordState.CallRefetch;
       RecordState.Settle 0 (Rejected offline) None]
  = Some (Null, Some (mkError "offline")).
Proof.
  split; [reflexivity|]. split; [reflexivity|]. split; [discriminate|].
  vm_compute. reflexivity.
Qed.

(** C1, amended: a failing fetch sets the error state on both adapters.
    On the collection adapter the snapshot becomes the empty sequence and
    page and totals stay as they were; on the document adapter the
    snapshot becomes [null], whichever of the two queries failed.  No
    further call is issued and the loading flag is cleared. *)
Theorem failed_fetch_resets_snapshot (err : thrown) :
  (∀ w : CollectionState.world,
     let w' := CollectionState.fetch_data_resume (Rejected err) w in
     CollectionState.data (st w') = Val [] ∧
     CollectionState.error (st w') = Some (as_error err) ∧
     CollectionState.loading (st w') = false ∧
     CollectionState.page (st w') = CollectionState.page (st w) ∧
     CollectionState.totalPages (st w') = CollectionState.totalPages (st w) ∧
     CollectionState.totalItems (st w') = CollectionState.totalItems (st w) ∧
     log w' = log w ∧ pending w' = pending w) ∧
  (∀ (cfg : RecordState.config) (w : RecordState.world),
     let w1 := RecordState.fetch_one_resume cfg (Rejected err) w in
     let w2 := RecordState.fetch_list_resume cfg (Rejected err) w in
     (RecordState.data (st w1) = Null ∧
      RecordState.error (st w1) = Some (as_error err) ∧
      RecordState.loading (st w1) = false ∧
      log w1 = log w ∧ pending w1 = pending w) ∧
     (RecordState.data (st w2) = Null ∧
      RecordState.error (st w2) = Some (as_error err) ∧
      RecordState.loading (st w2) = false ∧
      log w2 = log w ∧ pending w2 = pending w)).
Proof.
  split.
  - intros w. simpl. auto 10.
  - intros cfg w. unfold RecordState.fetch_one_resume, RecordState.fetch_list_resume,
      RecordState.fetch_failed, RecordState.set_data.
    rewrite andb_false_r. simpl. auto 10.
Qed.

End FetchFailure.

(** ** Absent snapshot *)

Module AbsentSnapshot.
Import RecordState.

(** C10: on a document adapter whose snapshot is [undefined] or [null],
    [updateField] returns [null] and leaves the whole world as it was: no
    call is issued, and snapshot, loading flag and error state stay. *)
Theorem updateField_absent (cfg : config) (field : string) (value : value) (w : world) :
  truthy (data (st w)) = false →
  updateField cfg field value w = (w, Some (Fulfilled Null)) ∧
  step cfg (CallUpdateField field value) w = Some w.
Proof.
  intros Habs. unfold step, updateField.
  destruct (data (st w)); [| |discriminate]; auto.
Qed.

Lemma updateField_absent_witness :
  truthy (data (st Samples.absent)) = false ∧
  updateField Samples.profile "name" (VStr "B") Samples.absent
    = (Samples.absent, Some (Fulfilled Null)).
Proof.
  split; [reflexivity|].
  apply (updateField_absent Samples.profile "name" (VStr "B") Samples.absent).
  reflexivity.
Defined.

End AbsentSnapshot.

(** ** Where a failure goes *)

Module FailurePropagation.

(** C5, as stated, fails for [login]: whatever one reads off the
    authentication adapter after a failed login, it cannot be the failure,
    because the adapter ends in the same state for every failure. *)
Lemma login_failure_not_captured :
  ¬ ∃ error_of : CurrentUserState.state → option Error,
      ∀ (s : CurrentUserState.state) (err : thrown),
        error_of (CurrentUserState.login_resume (Rejected err) s).1 = Some (as_error err).
Proof.
  intros [error_of H].
  pose (s := CurrentUserState.mkState Null true).
  pose proof (H s (ThrownValue "a")) as Ha.
  pose proof (H s (ThrownValue "b")) as Hb.
  simpl in Ha, Hb. rewrite Ha in Hb. discriminate.
Qed.

(** C5, amended: when the remote call of [add], [update], [remove] (in
    either copy of the collection adapter) or [save] fails, the failure,
    made an [Error], is stored in the error state and that same error is
    thrown to the caller.  When the remote call of [login] fails, the
    failure is thrown to the caller as it is and the loading flag is
    cleared; the authentication adapter has no error state and stores
    nothing.  When a fetch fails, on either adapter and whatever runs after
    it, the error state is set and nothing is thrown. *)
Theorem failures_captured_and_rethrown (err : thrown) (throws : option thrown) :
  (∀ v cfg (w : CollectionState.world) (id : string) (k : CollectionState.frame),
     k ∈ [CollectionState.KAdd; CollectionState.KUpdate id; CollectionState.KRemove id] →
     ∃ w', CollectionState.resume v cfg k (Rejected err) throws w = Some w' ∧
           CollectionState.error (st w') = Some (as_error err) ∧
           CollectionState.loading (st w') = false ∧
           raised w' = raised w ++ [ThrownError (as_error err)]) ∧
  (∀ cfg (w : RecordState.world),
     (RecordState.save_resume cfg (Rejected err) w).2
       = Some (Failed (ThrownError (as_error err))) ∧
     ∃ w', RecordState.resume cfg (RecordState.KSave RecordState.ByCaller)
             (Rejected err) throws w = Some w' ∧
           RecordState.error (st w') = Some (as_error err) ∧
           RecordState.loading (st w') = false ∧
           raised w' = raised w ++ [ThrownError (as_error err)]) ∧
  (∀ s, CurrentUserState.login_resume (Rejected err) s
        = (CurrentUserState.set_loading false s, Failed err)) ∧
  (∀ v cfg (w : CollectionState.world) t,
     ∃ w', CollectionState.resume v cfg (CollectionState.KFetch t) (Rejected err) throws w
             = Some w' ∧
           is_Some (CollectionState.error (st w')) ∧
           raised w' = raised w) ∧
  (∀ cfg (w : RecordState.world) t (k : RecordState.frame),
     k ∈ [RecordState.KGetOne t; RecordState.KGetList t] →
     ∃ w', RecordState.resume cfg k (Rejected err) throws w = Some w' ∧
           is_Some (RecordState.error (st w')) ∧
           raised w' = raised w).
Proof.
  split; [|split; [|split; [|split]]].
  - intros v cfg w id k Hk.
    apply elem_of_cons in Hk as [->|Hk]; [|apply elem_of_cons in Hk as [->|Hk]];
      [| |apply list_elem_of_singleton in Hk as ->];
      (eexists; split; [reflexivity|]; simpl; auto).
  - intros cfg w. split; [reflexivity|].
    eexists. split; [reflexivity|]. simpl. auto.
  - reflexivity.
  - intros v cfg w t. destruct t as [| |r].
    + eexists. split; [reflexivity|]. simpl. eauto.
    + eexists. split; [reflexivity|]. destruct throws; simpl; eauto.
    + eexists. split; [reflexivity|]. simpl. eauto.
  - intros cfg w t k Hk.
    apply elem_of_cons in Hk as [->|Hk]; [|apply list_elem_of_singleton in Hk as ->].
    all: eexists; (split; [reflexivity|]).
    all: unfold RecordState.fetch_one_resume, RecordState.fetch_list_resume,
           RecordState.fetch_failed, RecordState.set_data; rewrite andb_false_r.
    all: destruct t; simpl; [eauto|].
    all: unfold RecordState.subscribe_then.
    all: destruct (negb _); [simpl; eauto|].
    all: destruct throws; simpl; eauto.
Qed.

Lemma failures_captured_and_rethrown_witness :
  ∃ w', CollectionState.resume CollectionState.PatchInPlace Samples.tasks
          CollectionState.KAdd (Rejected Samples.offline) None Samples.idle_world
          = Some w' ∧
        CollectionState.error (st w') = Some (mkError "offline") ∧
        raised w' = [ThrownError (mkError "offline")].
Proof.
  destruct (failures_captured_and_rethrown Samples.offline None) as (Hmut & _).
  destruct (Hmut CollectionState.PatchInPlace Samples.tasks Samples.idle_world "a"
              CollectionState.KAdd) as (w' & Hres & Herr & _ & Hraised).
  { apply list_elem_of_here. }
  exists w'. split; [exact Hres|]. split; [exact Herr|exact Hraised].
Defined.

End FailurePropagation.

(** ** Saving a document *)

Module Saving.
Import RecordState.

Lemma reserved_spec (k : string) :
  k ∈ reserved ↔
  k = "id" ∨ k = "created" ∨ k = "updated" ∨ k = "collectionId" ∨ k = "collectionName".
Proof. unfold reserved. rewrite !elem_of_cons, elem_of_nil. tauto. Qed.

Lemma strip_lookup (r : record) (k : string) :
  strip r !! k = if decide (k ∈ reserved) then None else r !! k.
Proof.
  unfold strip. rewrite !lookup_delete.
  destruct (decide (k ∈ reserved)) as [Hin|Hout].
  - apply reserved_spec in Hin. destruct Hin as [->|[->|[->|[->| ->]]]]; reflexivity.
  - repeat case_decide; try reflexivity; subst; exfalso;
      apply Hout, reserved_spec; auto 10.
Qed.

Lemma set_data_snapshot cfg value w : data (st (set_data cfg value w)) = value.
Proof.
  unfold set_data, save. destruct (_ && _); [|reflexivity].
  simpl. destruct value; reflexivity.
Qed.

(** C6, as stated, fails on a listening adapter whose live channel is not
    open: after a detach no subscription is active, yet a successful
    [save()] returns the server's record and leaves the snapshot as it
    was. *)
Lemma listening_save_keeps_snapshot :
  run Samples.live_profile Samples.detach_trace = Some Samples.detached ∧
  unsubscribe (st Samples.detached) = None ∧ subs Samples.detached = [] ∧
  data (st Samples.detached) = Val Samples.rec_r1 ∧
  (save_resume Samples.live_profile (Resolved Samples.rec_r1') Samples.detached).2
    = Some (Fulfilled (Val Samples.rec_r1')) ∧
  data (st (save_resume Samples.live_profile (Resolved Samples.rec_r1') Samples.detached).1)
    = Val Samples.rec_r1 ∧
  (data <$> (st <$> run Samples.live_profile
                      (Samples.detach_trace ++
                       [CallSave; Settle 0 (Resolved (ROne Samples.rec_r1')) None])))
    = Some (Val Samples.rec_r1) ∧
  Val Samples.rec_r1 ≠ Val Samples.rec_r1'.
Proof.
  split; [vm_compute; reflexivity|].
  do 4 (split; [reflexivity|]).
  split; [reflexivity|].
  split; [vm_compute; reflexivity|].
  intros H.
  apply (f_equal (λ c : cell record,
                    match c with Val m => m !! "updated" | _ => None end)) in H.
  vm_compute in H. discriminate.
Qed.

(** C6, amended: [save()] on a snapshot that is a record issues one update,
    to the record's identifier, whose body is the snapshot without the
    reserved fields and with every other field as it is.  When the update
    settles with the server's record, [save()] returns that record.  An
    adapter built without [listen] takes the record as its snapshot; an
    adapter built with [listen] leaves the snapshot as it was, whether its
    live channel is open or not, so that the snapshot is never replaced
    while a live channel is open.  On an absent snapshot [save()] returns
    [null] and changes nothing. *)
Theorem save_strips_and_replaces (cfg : config) (who : origin) (w : world) :
  reachable cfg w →
  (truthy (data (st w)) = false → save cfg who w = (w, Some (Fulfilled Null))) ∧
  (∀ r, data (st w) = Val r →
     ∃ w1, save cfg who w = (w1, None) ∧
           log w1 = log w ++ [Update (collectionName cfg) (id_of r) (strip r)] ∧
           pending w1 = pending w ++ [KSave who] ∧
           data (st w1) = Val r ∧
           (∀ k, k ∈ reserved → strip r !! k = None) ∧
           (∀ k, k ∉ reserved → strip r !! k = r !! k)) ∧
  (∀ r', let wc := save_resume cfg (Resolved r') w in
     wc.2 = Some (Fulfilled (Val r')) ∧
     (listen cfg = false → data (st wc.1) = Val r') ∧
     (listen cfg = true → data (st wc.1) = data (st w) ∧ log wc.1 = log w) ∧
     (is_Some (unsubscribe (st w)) →
        data (st wc.1) = data (st w) ∧ log wc.1 = log w)).
Proof.
  intros Hr. split; [|split].
  - intros Habs. unfold save. destruct (data (st w)); [| |discriminate]; reflexivity.
  - intros r Hdata. unfold save. rewrite Hdata. eexists. split; [reflexivity|].
    simpl. repeat split; try done.
    + intros k Hk. rewrite strip_lookup. by rewrite decide_True.
    + intros k Hk. rewrite strip_lookup. by rewrite decide_False.
  - intros r' wc. subst wc. split; [reflexivity|]. split; [|split].
    + intros Hl. unfold save_resume. rewrite Hl. simpl. apply set_data_snapshot.
    + intros Hl. unfold save_resume. rewrite Hl. simpl. auto.
    + intros Hsub. unfold save_resume.
      rewrite (RecordInvariant.record_subscribed_listens cfg w Hr Hsub). simpl. auto.
Qed.

Lemma save_strips_and_replaces_witness :
  reachable Samples.profile Samples.loaded ∧
  (∃ w1, save Samples.profile ByCaller Samples.loaded = (w1, None) ∧
         log w1 = [Update "profiles" (Some (VStr "r1")) {[ "name" := VStr "A" ]}]) ∧
  data (st (save_resume Samples.profile (Resolved Samples.rec_r1') Samples.loaded).1)
    = Val Samples.rec_r1'.
Proof.
  assert (Hr : reachable Samples.profile Samples.loaded).
  { exists [Assign (Val Samples.rec_r1)]. vm_compute. reflexivity. }
  split; [exact Hr|].
  destruct (save_strips_and_replaces Samples.profile ByCaller Samples.loaded Hr)
    as (_ & Hsave & Hresume).
  split.
  - destruct (Hsave Samples.rec_r1 eq_refl) as (w1 & Hw1 & Hlog & _).
    exists w1. split; [exact Hw1|]. rewrite Hlog. vm_compute. reflexivity.
  - apply (Hresume Samples.rec_r1'). reflexivity.
Defined.

End Saving.

(** ** Autosave *)

Module Autosave.
Import RecordState.

Section AnyPath.
Variable cfg : config.
Hypothesis autosave : autosaveEnabled cfg = true.

Lemma passive_refl w : passive w w.
Proof. split; [reflexivity|]. exists []. split; [by rewrite app_nil_r|constructor]. Qed.

Lemma passive_trans w1 w2 w3 : passive w1 w2 → passive w2 w3 → passive w1 w3.
Proof.
  intros [Hd1 (p1 & Hl1 & Hn1)] [Hd2 (p2 & Hl2 & Hn2)]. split; [congruence|].
  exists (p1 ++ p2). split; [by rewrite Hl2, Hl1, app_assoc|by apply Forall_app].
Qed.

Lemma passive_upd f w : (∀ s, data (f s) = data s) → passive w (upd f w).
Proof. intros Hf. split; [apply Hf|]. exists []. split; [by rewrite app_nil_r|constructor]. Qed.

Lemma passive_await c k (w : world) : is_save c = false → passive w (await c k w).
Proof. intros Hc. split; [reflexivity|]. exists [c]. split; [reflexivity|by repeat constructor]. Qed.

Lemma passive_emit c (w : world) : is_save c = false → passive w (emit c w).
Proof. intros Hc. split; [reflexivity|]. exists [c]. split; [reflexivity|by repeat constructor]. Qed.

Lemma passive_same (w w' : world) : st w' = st w → log w' = log w → passive w w'.
Proof. intros Hs Hl. split; [by rewrite Hs|]. exists []. split; [by rewrite app_nil_r|constructor]. Qed.

Lemma assigned_then c w1 w2 w3 : assigned cfg c w1 w2 → passive w2 w3 → assigned cfg c w1 w3.
Proof.
  intros [Hd1 H1] [Hd2 (p2 & Hl2 & Hn2)]. split; [congruence|].
  destruct c as [| |r]; try done. destruct H1 as (pre & post & Hl1 & Hpre & Hpost).
  exists pre, (post ++ p2). split; [|split; [done|by apply Forall_app]].
  rewrite Hl2, Hl1. by rewrite <- !app_assoc.
Qed.

Lemma then_assigned c w1 w2 w3 : passive w1 w2 → assigned cfg c w2 w3 → assigned cfg c w1 w3.
Proof.
  intros [Hd1 (p1 & Hl1 & Hn1)] [Hd2 H2]. split; [done|].
  destruct c as [| |r]; try done. destruct H2 as (pre & post & Hl2 & Hpre & Hpost).
  exists (p1 ++ pre), post. split; [|split; [by apply Forall_app|done]].
  rewrite Hl2, Hl1. by rewrite <- !app_assoc.
Qed.

Lemma assigned_set_data c w : assigned cfg c w (set_data cfg c w).
Proof.
  unfold set_data, save, assigned. rewrite autosave.
  destruct c as [| |r]; simpl; [done|done|].
  split; [reflexivity|].
  exists [], []. split; [reflexivity|split; constructor].
Qed.

Ltac peel :=
  match goal with
  | |- passive ?w ?w => apply passive_refl
  | |- passive ?w (upd ?f ?x) => apply (passive_trans w x); [|by apply passive_upd]
  | |- passive ?w (await ?c ?k ?x) => apply (passive_trans w x); [|by apply passive_await]
  | |- passive ?w (emit ?c ?x) => apply (passive_trans w x); [|by apply passive_emit]
  | |- passive ?w (suspend ?k ?x) => apply (passive_trans w x); [|by apply passive_same]
  | |- passive ?w (set_subs ?l ?x) => apply (passive_trans w x); [|by apply passive_same]
  | |- assigned _ ?c ?w (upd ?f ?x) => apply (assigned_then c w x); [|by apply passive_upd]
  | |- assigned _ ?c ?w (suspend ?k ?x) => apply (assigned_then c w x); [|by apply passive_same]
  | |- assigned _ ?c ?w (set_data _ ?c ?x) =>
      apply (then_assigned c w x); [|apply assigned_set_data]
  end.

Lemma passive_subscribe_then throws w : passive w (subscribe_then cfg throws w).
Proof.
  unfold subscribe_then. destruct (negb _); [apply passive_refl|].
  destruct throws; repeat peel.
Qed.

Lemma passive_and_then t throws w : passive w (and_then cfg t throws w).
Proof. destruct t; [apply passive_refl|apply passive_subscribe_then]. Qed.

Lemma fetch_data_effect t w :
  passive w (fetch_data cfg t w) ∨ assigned cfg Null w (fetch_data cfg t w).
Proof.
  unfold fetch_data.
  destruct (truthy_str (recordId cfg)); [|destruct (truthy_str (filterQuery cfg))].
  - left. repeat peel.
  - left. repeat peel.
  - right. destruct t; repeat peel.
Qed.

Lemma fetch_one_effect o w : ∃ c, assigned cfg c w (fetch_one_resume cfg o w).
Proof.
  unfold fetch_one_resume, fetch_failed.
  destruct o as [r|err]; [exists (Val r)|exists Null]; repeat peel.
Qed.

Lemma fetch_list_effect o w : ∃ c, assigned cfg c w (fetch_list_resume cfg o w).
Proof.
  unfold fetch_list_resume, fetch_failed.
  destruct o as [r|err]; [destruct (items r) as [|first rest]|];
    [exists Null|exists (Val first)|exists Null]; repeat peel.
Qed.

Lemma save_resume_effect o w :
  passive w (save_resume cfg o w).1 ∨ ∃ c, assigned cfg c w (save_resume cfg o w).1.
Proof.
  unfold save_resume. destruct o as [r|err]; simpl.
  - destruct (negb (listen cfg)).
    + right. exists (Val r). repeat peel.
    + left. repeat peel.
  - left. repeat peel.
Qed.

Lemma take_same i k (w w0 : world) : take i w = Some (k, w0) → st w0 = st w ∧ log w0 = log w.
Proof.
  unfold take. destruct (pending w !! i); [|discriminate]. by intros [= <- <-].
Qed.

(** Every step of the event loop either keeps the snapshot or assigns it
    once, saving what it assigned. *)
Lemma step_effect l w w' :
  step cfg l w = Some w' →
  data (st w') = data (st w) ∨ ∃ c, assigned cfg c w w'.
Proof.
  intros Hstep. destruct l; simpl in Hstep.
  - injection Hstep as <-. by left.
  - injection Hstep as <-. left. unfold stop. by destruct (unsubscribe (st w)).
  - injection Hstep as <-. destruct (fetch_data_effect Done w) as [[? _]|?]; eauto.
  - injection Hstep as <-. left. unfold settle, save.
    destruct (data (st w)) eqn:Hd; simpl; congruence.
  - injection Hstep as <-. unfold updateField. rewrite autosave. simpl.
    destruct (data (st w)) as [| |r0] eqn:Hd; simpl; try by left.
    right. eexists. apply assigned_set_data.
  - injection Hstep as <-. right. eexists. apply assigned_set_data.
  - destruct (take i w) as [[k w0]|] eqn:Ht; [|discriminate].
    destruct (take_same _ _ _ _ Ht) as [Hst Hlog].
    assert (Hp : passive w w0) by by apply passive_same.
    destruct k as [|t|t| |[|]]; simpl in Hstep.
    + destruct o as [[]|]; try discriminate. injection Hstep as <-.
      unfold start_resume, subscribe_to_data.
      destruct (listen cfg); [destruct (unsubscribe (st w0))|].
      * left. by rewrite Hst.
      * destruct (fetch_data_effect ThenSubscribe w0) as [[? _]|?];
          [left; congruence|right; eexists; by eapply then_assigned].
      * destruct (fetch_data_effect Done w0) as [[? _]|?];
          [left; congruence|right; eexists; by eapply then_assigned].
    + destruct (as_one o) as [o'|]; [|discriminate]. injection Hstep as <-.
      destruct (fetch_one_effect o' w0) as [c Hc]. right. exists c.
      eapply then_assigned; [done|]. eapply assigned_then; [done|apply passive_and_then].
    + destruct (as_list o) as [o'|]; [|discriminate]. injection Hstep as <-.
      destruct (fetch_list_effect o' w0) as [c Hc]. right. exists c.
      eapply then_assigned; [done|]. eapply assigned_then; [done|apply passive_and_then].
    + destruct o as [[]|]; try discriminate. injection Hstep as <-.
      left. destruct (passive_subscribe_then throws w0) as [? _]. congruence.
    + destruct (as_one o) as [o'|]; [|discriminate]. injection Hstep as <-.
      destruct (save_resume_effect o' w0) as [[Hd _]|[c Hc]].
      * left. unfold settle. destruct (save_resume cfg o' w0) as [w1 [[?|?]|]]; simpl in *; congruence.
      * right. exists c. eapply then_assigned; [done|]. eapply assigned_then; [done|].
        unfold settle. destruct (save_resume cfg o' w0) as [w1 [[?|?]|]]; simpl;
          try apply passive_refl. by apply passive_same.
    + destruct (as_one o) as [o'|]; [|discriminate]. injection Hstep as <-.
      destruct (save_resume_effect o' w0) as [[Hd _]|[c Hc]].
      * left. unfold autosave_catch. destruct (save_resume cfg o' w0) as [w1 [[?|?]|]]; simpl in *; congruence.
      * right. exists c. eapply then_assigned; [done|]. eapply assigned_then; [done|].
        unfold autosave_catch. destruct (save_resume cfg o' w0) as [w1 [[?|?]|]]; simpl;
          try apply passive_refl. by apply passive_same.
  - destruct (subs w !! i); [|discriminate]. injection Hstep as <-.
    unfold on_event. repeat destruct (String.eqb _ _); [| |by left];
      right; eexists; apply assigned_set_data.
Qed.

End AnyPath.

Lemma set_data_autosave (cfg : config) (r : record) (w : world) :
  autosaveEnabled cfg = true →
  set_data cfg (Val r) w
  = await (Update (collectionName cfg) (id_of r) (strip r)) (KSave ByAutosave)
      (upd (set_error None) (upd (set_loading true) (upd (set_value (Val r)) w))).
Proof. intros Ha. unfold set_data, save. rewrite Ha. reflexivity. Qed.

(** On a document adapter with autosave, the setter, given a record,
    stores it and issues one update carrying that record without its
    reserved fields; nothing is thrown to whoever assigned.  [updateField]
    assigns through the setter, so it issues that one update for the
    patched record and returns the patched record.  Whatever step of the
    event loop turns the snapshot into a record (an assignment from
    outside, [updateField], a fetch, a live event, the reply to a save),
    that step issues one save, of that record.  When the update of an
    autosave fails, the failure is stored in the error state and reported
    on the console, and nothing is thrown. *)
Theorem autosave_saves_once (cfg : config) (r : record) (w : world) :
  autosaveEnabled cfg = true →
  let w1 := set_data cfg (Val r) w in
  step cfg (Assign (Val r)) w = Some w1 ∧
  (data (st w1) = Val r ∧
   log w1 = log w ++ [Update (collectionName cfg) (id_of r) (strip r)] ∧
   pending w1 = pending w ++ [KSave ByAutosave] ∧
   raised w1 = raised w) ∧
  (∀ field value r0, data (st w) = Val r0 →
     let r' := <[field := value]> r0 in
     ∃ w2, updateField cfg field value w = (w2, Some (Fulfilled (Val r'))) ∧
           data (st w2) = Val r' ∧
           log w2 = log w ++ [Update (collectionName cfg) (id_of r') (strip r')] ∧
           pending w2 = pending w ++ [KSave ByAutosave] ∧
           raised w2 = raised w) ∧
  (∀ l w0 w' r0,
     step cfg l w0 = Some w' → data (st w') = Val r0 → data (st w0) ≠ Val r0 →
     ∃ pre post,
       log w' = log w0 ++ pre ++ Update (collectionName cfg) (id_of r0) (strip r0) :: post ∧
       no_save pre ∧ no_save post) ∧
  (∀ err throws w2,
     ∃ w3, resume cfg (KSave ByAutosave) (Rejected err) throws w2 = Some w3 ∧
           error (st w3) = Some (as_error err) ∧
           raised w3 = raised w2 ∧
           console w3 = console w2 ++ ["Autosave failed:"]).
Proof.
  intros Ha w1. subst w1. split; [reflexivity|]. split; [|split; [|split]].
  - rewrite (set_data_autosave _ _ _ Ha). simpl. auto.
  - intros field value r0 Hdata r'. unfold updateField. rewrite Hdata, Ha. simpl.
    eexists. split.
    + rewrite Saving.set_data_snapshot. reflexivity.
    + rewrite (set_data_autosave _ _ _ Ha). simpl. auto.
  - intros l w0 w' r0 Hstep Hafter Hbefore.
    destruct (step_effect cfg Ha _ _ _ Hstep) as [Hsame|[c [Hc H]]]; [congruence|].
    rewrite Hafter in Hc. subst c. exact H.
  - intros err throws w2. eexists. split; [reflexivity|]. simpl. auto.
Qed.

Lemma autosave_saves_once_witness :
  autosaveEnabled Samples.autosaved_profile = true ∧
  log (set_data Samples.autosaved_profile (Val (<["name" := VStr "B"]> Samples.rec_r1))
         Samples.loaded)
  = [Update "profiles" (Some (VStr "r1")) {[ "name" := VStr "B" ]}].
Proof.
  split; [reflexivity|].
  destruct (autosave_saves_once Samples.autosaved_profile
              (<["name" := VStr "B"]> Samples.rec_r1) Samples.loaded eq_refl)
    as (_ & (_ & Hlog & _) & _).
  rewrite Hlog. vm_compute. reflexivity.
Defined.

(** The save that an autosave starts assigns the server's record through
    the same setter when the adapter does not listen, and so starts the
    next save. *)
Lemma autosave_follow_up (cfg : config) (r' : record) (throws : option thrown) (w : world) :
  autosaveEnabled cfg = true → listen cfg = false →
  ∃ w', resume cfg (KSave ByAutosave) (Resolved (ROne r')) throws w = Some w' ∧
        data (st w') = Val r' ∧
        log w' = log w ++ [Update (collectionName cfg) (id_of r') (strip r')] ∧
        pending w' = pending w ++ [KSave ByAutosave].
Proof.
  intros Ha Hl. eexists. split; [reflexivity|].
  unfold save_resume. rewrite Hl. simpl. unfold autosave_catch. simpl.
  rewrite (set_data_autosave _ _ _ Ha). simpl. auto.
Qed.

(** C2, on the code: on an adapter with autosave that does not listen, one
    assignment of a record is followed by one update call per successful
    reply of the store, without end: after [n] replies, [n + 1] updates
    have been issued and one more is in flight.  Nothing is thrown to the
    caller. *)
Theorem autosave_saves_without_end (n : nat) :
  ∃ w, run Samples.autosaved_profile
         (Assign (Val Samples.rec_r1) :: Samples.replies n Samples.rec_r1') = Some w ∧
       pending w = [KSave ByAutosave] ∧
       length (log w) = S n ∧
       Forall (λ c, is_save c = true) (log w) ∧
       raised w = [].
Proof.
  induction n as [|n (w & Hrun & Hpend & Hlen & Hall & Hraised)].
  - eexists. split; [vm_compute; reflexivity|]. simpl. repeat split; by repeat constructor.
  - unfold Samples.replies. rewrite replicate_S_end, app_comm_cons.
    unfold run. rewrite run_steps_app.
    unfold run, Samples.replies in Hrun. rewrite Hrun.
    destruct w as [s pend lg sb rs cs]. simpl in *. subst pend rs.
    eexists. split; [reflexivity|]. simpl. rewrite length_app, Hlen. simpl.
    repeat split; [lia|].
    apply Forall_app. split; [exact Hall|by repeat constructor].
Qed.

End Autosave.

(** ** Adding to a collection *)

Module Adding.
Import CollectionState.

(** C4, as stated, fails on the copy in src/lib/data/collection.svelte.ts:
    on an adapter that does not listen, a successful [add] is followed by a
    list query, and the record is not appended to the snapshot. *)
Lemma refetch_copy_add_refetches :
  let wc := add_resume RefetchOnChange Samples.tasks (Resolved Samples.rec_x)
              Samples.idle_world in
  run RefetchOnChange Samples.tasks Samples.idle_trace = Some Samples.idle_world ∧
  log wc.1 = log Samples.idle_world ++ [GetList "tasks" 1 50 (Samples.sorted 1)] ∧
  data (st wc.1) = Val [Samples.rec_a] ∧
  data (st wc.1) ≠ Val ([Samples.rec_a] ++ [Samples.rec_x]).
Proof.
  split; [vm_compute; reflexivity|]. split; [vm_compute; reflexivity|].
  split; [reflexivity|]. simpl. intros [=].
Qed.

(** C4, amended: [add] issues the create call and nothing else.  In the
    patch-in-place copy, when that call settles with the server's record,
    [add] returns the record without issuing any further call; an adapter
    that does not listen and holds a snapshot appends the record at its
    end.  In the copy of src/lib/data/collection.svelte.ts an adapter that
    does not listen issues one list query for the current page instead and
    returns the record once that query has settled, the snapshot being what
    the query returned.  In both copies the snapshot is left as it was
    while a live channel is open. *)
Theorem add_by_copy
    (v : impl) (cfg : config) (body r : record) (w0 w : world) :
  reachable v cfg w →
  let w1 := add cfg body w0 in
  let wc := add_resume v cfg (Resolved r) w in
  (log w1 = log w0 ++ [Create (collectionName cfg) body] ∧
   pending w1 = pending w0 ++ [KAdd] ∧
   data (st w1) = data (st w0)) ∧
  (is_Some (unsubscribe (st w)) →
     data (st wc.1) = data (st w) ∧ log wc.1 = log w ∧
     wc.2 = Some (Fulfilled (RetRecord r))) ∧
  match v with
  | PatchInPlace =>
      wc.2 = Some (Fulfilled (RetRecord r)) ∧
      log wc.1 = log w ∧ pending wc.1 = pending w ∧
      page (st wc.1) = page (st w) ∧
      (∀ l, listen cfg = false → data (st w) = Val l → data (st wc.1) = Val (l ++ [r]))
  | RefetchOnChange =>
      listen cfg = false →
      wc.2 = None ∧
      log wc.1 = log w ++ [fetch_call cfg (st w)] ∧
      pending wc.1 = pending w ++ [KFetch (ThenReturn (RetRecord r))] ∧
      data (st wc.1) = data (st w) ∧
      (∀ fetched w2,
         let wc2 := return_after_fetch (RetRecord r) (Resolved fetched) w2 in
         wc2.2 = Some (Fulfilled (RetRecord r)) ∧
         data (st wc2.1) = Val (items fetched))
  end.
Proof.
  intros Hr w1 wc. subst w1 wc. split; [|split].
  - simpl. auto.
  - intros Hsub. simpl. unfold after_mutation, optimistic.
    rewrite (CollectionInvariant.collection_subscribed_listens _ _ _ Hr Hsub).
    destruct v; destruct w as [[[| |l] ? ? ? ? ? ?] ? ? ? ? ?]; simpl; auto.
  - destruct v.
    + simpl. split; [reflexivity|]. unfold optimistic.
      split; [reflexivity|]. split; [reflexivity|]. split.
      * destruct (data (st w)), (negb (listen cfg)); reflexivity.
      * intros l Hl Hdata. rewrite Hdata, Hl. reflexivity.
    + intros Hl. simpl. unfold after_mutation. rewrite Hl. simpl. auto 10.
Qed.

Lemma add_by_copy_witness :
  reachable PatchInPlace Samples.tasks Samples.idle_world ∧
  data (st (add_resume PatchInPlace Samples.tasks (Resolved Samples.rec_x)
              Samples.idle_world).1)
    = Val ([Samples.rec_a] ++ [Samples.rec_x]) ∧
  reachable PatchInPlace Samples.live_tasks Samples.live_world ∧
  data (st (add_resume PatchInPlace Samples.live_tasks (Resolved Samples.rec_x)
              Samples.live_world).1)
    = data (st Samples.live_world).
Proof.
  assert (Hidle : reachable PatchInPlace Samples.tasks Samples.idle_world).
  { exists Samples.idle_trace. vm_compute. reflexivity. }
  assert (Hlive : reachable PatchInPlace Samples.live_tasks Samples.live_world).
  { exists Samples.live_trace. vm_compute. reflexivity. }
  split; [exact Hidle|]. split; [|split; [exact Hlive|]].
  - apply (add_by_copy PatchInPlace Samples.tasks ∅ Samples.rec_x
             Samples.idle_world Samples.idle_world Hidle); reflexivity.
  - apply (add_by_copy PatchInPlace Samples.live_tasks ∅ Samples.rec_x
             Samples.live_world Samples.live_world Hlive).
    simpl. eauto.
Defined.

End Adding.

(** ** Starting twice *)

Module Starting.
Import CollectionState Samples.

(** Once the live channel is open, [start()] does nothing further. *)
Lemma start_again_is_noop v cfg (w : world) :
  reachable v cfg w → is_Some (unsubscribe (st w)) → start_resume cfg w = w.
Proof.
  intros Hr Hsub. unfold start_resume, subscribe_to_data.
  rewrite (CollectionInvariant.collection_subscribed_listens _ _ _ Hr Hsub).
  destruct Hsub as [c ->]. reflexivity.
Qed.

(** [stop()] without an open channel does nothing. *)
Lemma stop_idle_is_noop (w : world) :
  unsubscribe (st w) = None → stop w = w.
Proof. intros Hu. unfold stop. by rewrite Hu. Qed.

(** C7, on the code: [start()], [stop()], [start()] invoked before the first
    fetch has settled pass the guard of [subscribe_to_data] twice.  When
    the second fetch settles the first channel is already open, and a
    second one is opened next to it: two callbacks are registered. *)
Theorem double_start_opens_two_channels :
  run PatchInPlace live_tasks race_trace = Some racing ∧
  is_Some (unsubscribe (st racing)) ∧ subs racing = [star] ∧
  step PatchInPlace live_tasks (Settle 0 (page_of [rec_a] 1 1) None) racing = Some raced ∧
  log raced = log racing ++ [Subscribe "tasks" star] ∧
  subs raced = [star; star].
Proof. vm_compute. eauto 10. Qed.

End Starting.

(** ** Pagination *)

Module Pagination.
Import CollectionState.

(** C8, as stated, fails for [prevPage]: after the store has shrunk to two
    pages under an adapter standing on page five, the move to page four
    lies outside [1, totalPages] and is carried out all the same. *)
Lemma prevPage_moves_outside_range :
  run PatchInPlace Samples.tasks Samples.shrink_trace = Some Samples.shrunk ∧
  page (st Samples.shrunk) = 5 ∧ totalPages (st Samples.shrunk) = 2 ∧
  ¬ (1 <= page (st Samples.shrunk) - 1 <= totalPages (st Samples.shrunk)) ∧
  prevPage Samples.tasks Samples.shrunk ≠ Samples.shrunk ∧
  page (st (prevPage Samples.tasks Samples.shrunk)) = 4 ∧
  log (prevPage Samples.tasks Samples.shrunk)
    = log Samples.shrunk ++ [GetList "tasks" 4 50 (Samples.sorted 4)].
Proof.
  split; [vm_compute; reflexivity|].
  split; [reflexivity|]. split; [reflexivity|].
  split; [vm_compute; intros [_ H]; apply H; reflexivity|].
  split; [|split; vm_compute; reflexivity].
  intros H. apply (f_equal (λ w, page (st w))) in H. vm_compute in H. discriminate.
Qed.

(** C8, amended: [nextPage] does nothing when the page is not below
    [totalPages], [prevPage] does nothing when the page is not above one
    (it does not look at [totalPages]), and [goToPage(p)] does nothing
    when [p] lies outside [1, totalPages]; doing nothing leaves the whole
    world, so page, snapshot and totals, as it was and issues no call.
    Otherwise the page counter is set first and one list query for the new
    page is issued, snapshot and totals staying as they are until it
    settles. *)
Theorem navigation_guards (cfg : config) (w : world) (p : Z) :
  ((totalPages (st w) <= page (st w) → nextPage cfg w = w) ∧
   (page (st w) <= 1 → prevPage cfg w = w) ∧
   (p < 1 ∨ totalPages (st w) < p → goToPage cfg p w = w)) ∧
  ((page (st w) < totalPages (st w) →
      nextPage cfg w = fetch_data cfg Done (upd (set_page (page (st w) + 1)) w)) ∧
   (1 < page (st w) →
      prevPage cfg w = fetch_data cfg Done (upd (set_page (page (st w) - 1)) w)) ∧
   (1 <= p <= totalPages (st w) →
      goToPage cfg p w = fetch_data cfg Done (upd (set_page p) w))) ∧
  (∀ q, let w' := fetch_data cfg Done (upd (set_page q) w) in
     page (st w') = q ∧
     (∃ size opts, log w' = log w ++ [GetList (collectionName cfg) q size opts] ∧
                   o_page opts = Some q) ∧
     pending w' = pending w ++ [KFetch Done] ∧
     data (st w') = data (st w) ∧
     totalPages (st w') = totalPages (st w) ∧
     totalItems (st w') = totalItems (st w)).
Proof.
  split; [|split].
  - unfold nextPage, prevPage, goToPage. repeat split.
    + intros H. destruct (Z.ltb_spec (page (st w)) (totalPages (st w))); [lia|done].
    + intros H. destruct (Z.ltb_spec 1 (page (st w))); [lia|done].
    + intros H. destruct (Z.leb_spec 1 p), (Z.leb_spec p (totalPages (st w)));
        simpl; try done; lia.
  - unfold nextPage, prevPage, goToPage. repeat split.
    + intros H. destruct (Z.ltb_spec (page (st w)) (totalPages (st w))); [done|lia].
    + intros H. destruct (Z.ltb_spec 1 (page (st w))); [done|lia].
    + intros H. destruct (Z.leb_spec 1 p), (Z.leb_spec p (totalPages (st w)));
        simpl; try done; lia.
  - intros q. simpl. repeat split. eauto.
Qed.

Lemma navigation_guards_witness :
  nextPage Samples.tasks Samples.shrunk = Samples.shrunk ∧
  goToPage Samples.tasks 7 Samples.shrunk = Samples.shrunk ∧
  prevPage Samples.tasks Samples.idle_world = Samples.idle_world ∧
  page (st (goToPage Samples.tasks 2 Samples.shrunk)) = 2 ∧
  log (goToPage Samples.tasks 2 Samples.shrunk)
    = log Samples.shrunk ++ [GetList "tasks" 2 50 (Samples.sorted 2)] ∧
  data (st (goToPage Samples.tasks 2 Samples.shrunk)) = data (st Samples.shrunk) ∧
  page (st (prevPage Samples.tasks Samples.shrunk)) = 4.
Proof.
  destruct (navigation_guards Samples.tasks Samples.shrunk 7)
    as ((Hnext & _ & Hout) & (_ & Hprev & _) & Hmove4).
  destruct (navigation_guards Samples.tasks Samples.shrunk 2)
    as (_ & (_ & _ & Hgo) & Hmove).
  destruct (navigation_guards Samples.tasks Samples.idle_world 1)
    as ((_ & Hstay & _) & _).
  split; [apply Hnext; vm_compute; discriminate|].
  split; [apply Hout; right; reflexivity|].
  split; [apply Hstay; vm_compute; discriminate|].
  rewrite Hgo by (split; vm_compute; discriminate).
  rewrite Hprev by reflexivity.
  destruct (Hmove 2) as (Hp & _ & _ & Hd & _).
  destruct (Hmove4 (page (st Samples.shrunk) - 1)) as (Hp4 & _).
  split; [exact Hp|]. split; [vm_compute; reflexivity|]. split; [exact Hd|exact Hp4].
Defined.

End Pagination.

(** ** Lists of continuations *)

Lemma Forall_push {A} (P : A → Prop) l x : Forall P l → P x → Forall P (l ++ [x]).
Proof. intros. apply Forall_app. split; [done|by constructor]. Qed.

Lemma delete_push {A} (l : list A) x : delete (length l) (l ++ [x]) = l.
Proof. induction l as [|y l IH]; simpl; [done|]. by rewrite IH. Qed.


(** ** Looking up and patching the snapshot *)

Module CollectionLists.
Import CollectionState.

Lemma find_first id (l : list record) r :
  find (λ r, bool_decide (has_id id r)) l = Some r →
  ∃ l1 l2, l = l1 ++ r :: l2 ∧ Forall (λ x, ¬ has_id id x) l1 ∧ has_id id r.
Proof.
  induction l as [|x l IH]; simpl; [discriminate|].
  destruct (bool_decide (has_id id x)) eqn:Hx.
  - intros [= ->]. apply bool_decide_eq_true in Hx. exists [], l. split_and!; try done.
  - intros H. destruct (IH H) as (l1 & l2 & -> & Hl1 & Hr). apply bool_decide_eq_false in Hx.
    exists (x :: l1), l2. split_and!; try done. by constructor.
Qed.

Lemma find_none id (l : list record) :
  find (λ r, bool_decide (has_id id r)) l = None ↔ Forall (λ x, ¬ has_id id x) l.
Proof.
  induction l as [|x l IH]; simpl; [split; [constructor|done]|].
  destruct (bool_decide (has_id id x)) eqn:Hx.
  - apply bool_decide_eq_true in Hx. split; [discriminate|]. by inversion 1.
  - apply bool_decide_eq_false in Hx. rewrite IH. split; [by constructor|by inversion 1].
Qed.

Lemma find_filter (P Q : record → Prop) `{∀ x, Decision (P x)} `{∀ x, Decision (Q x)}
    (l : list record) :
  (∀ x, P x → Q x) →
  find (λ r, bool_decide (P r)) (filter Q l) = find (λ r, bool_decide (P r)) l.
Proof.
  intros HPQ. induction l as [|x l IH]; [done|].
  destruct (decide (Q x)) as [Hq|Hq].
  - rewrite filter_cons_True by done. simpl. by rewrite IH.
  - rewrite filter_cons_False by done. simpl. rewrite IH.
    rewrite bool_decide_eq_false_2; [done|]. intros Hp. by apply Hq, HPQ.
Qed.

Lemma find_fmap (P : record → Prop) `{∀ x, Decision (P x)} (f : record → record)
    (l : list record) :
  (∀ x, P (f x) ↔ P x) →
  find (λ r, bool_decide (P r)) (f <$> l) = f <$> find (λ r, bool_decide (P r)) l.
Proof.
  intros Hf. induction l as [|x l IH]; [done|]. rewrite fmap_cons. simpl.
  rewrite (bool_decide_ext _ _ (Hf x)). destruct (bool_decide (P x)); [done|apply IH].
Qed.

Lemma id_of_union r item id : has_id id r → has_id id (r ∪ item).
Proof. unfold id_of. intros H. by apply lookup_union_Some_l. Qed.

Lemma filter_none id (l : list record) :
  Forall (λ x, ¬ has_id id x) l →
  filter (λ item, id_of item ≠ Some (VStr id)) l = l.
Proof.
  induction 1 as [|x l Hx _ IH]; [done|]. rewrite filter_cons_True by done. by rewrite IH.
Qed.

(** X1.  [getById] returns the first record of the snapshot that carries
    the identifier, also when later records carry it as well, and finds
    nothing exactly when no record of the snapshot carries it; an unset
    snapshot counts as empty. *)
Theorem getById_first_match (id : string) (s : state) :
  (∀ r, getById id s = Some r →
     has_id id r ∧
     ∃ before after, snapshot s = before ++ r :: after ∧
                     Forall (λ x, ¬ has_id id x) before) ∧
  (getById id s = None ↔ Forall (λ x, ¬ has_id id x) (snapshot s)).
Proof.
  unfold getById, snapshot. destruct (data s) as [| |l].
  1-2: split; [discriminate|]; split; [constructor|done].
  split.
  - intros r Hr. destruct (find_first _ _ _ Hr) as (l1 & l2 & ? & ? & ?). eauto.
  - apply find_none.
Qed.

(** X2.  In the patch-in-place copy without live channel, a [remove] that
    the store confirmed issues no further call, leaves no record with that
    identifier to [getById], leaves every other lookup as it was, only ever
    drops records, and changes nothing when no record carried the
    identifier. *)
Theorem remove_forgets_only_that_id
    (cfg : config) (id : string) (l : list record) (w : world) :
  listen cfg = false → data (st w) = Val l →
  let wc := remove_resume PatchInPlace cfg id (Resolved ()) w in
  wc.2 = Some (Fulfilled RetTrue) ∧ log wc.1 = log w ∧
  getById id (st wc.1) = None ∧
  (∀ id', id' ≠ id → getById id' (st wc.1) = getById id' (st w)) ∧
  snapshot (st wc.1) `sublist_of` l ∧
  (Forall (λ x, ¬ has_id id x) l → data (st wc.1) = Val l).
Proof.
  intros Hl Hd wc. subst wc. simpl. unfold optimistic. rewrite Hd, Hl. simpl.
  split_and!; try done.
  - unfold getById. simpl. apply find_none, Forall_forall.
    intros x Hx. by apply list_elem_of_filter in Hx as [? _].
  - intros id' Hne. unfold getById. simpl. rewrite Hd.
    apply (find_filter (λ x, has_id id' x) (λ item, id_of item ≠ Some (VStr id))).
    intros x -> [= ?]. done.
  - unfold snapshot. simpl. apply sublist_filter.
  - intros Hnone. f_equal. by apply filter_none.
Qed.

Lemma remove_forgets_only_that_id_witness :
  let w := upd (set_data (Val [Samples.rec_a; Samples.rec_b])) Samples.idle_world in
  let wc := remove_resume PatchInPlace Samples.tasks "a" (Resolved ()) w in
  getById "a" (st wc.1) = None ∧ getById "b" (st wc.1) = getById "b" (st w).
Proof.
  intros w wc.
  destruct (remove_forgets_only_that_id Samples.tasks "a" [Samples.rec_a; Samples.rec_b] w
              eq_refl eq_refl) as (_ & _ & Hgone & Hrest & _).
  split; [exact Hgone|]. apply Hrest. discriminate.
Defined.

(** X3.  In the patch-in-place copy without live channel, an [update] that
    the store confirmed with a record of that identifier keeps the length
    of the snapshot, answers [getById] for that identifier with the old
    record overlaid by the store's fields (the store's fields win), leaves
    every other lookup as it was, and changes nothing when no record
    carried the identifier: the store's record is not added. *)
Theorem update_merges_server_record
    (cfg : config) (id : string) (r : record) (l : list record) (w : world) :
  listen cfg = false → data (st w) = Val l → has_id id r →
  let wc := update_resume PatchInPlace cfg id (Resolved r) w in
  wc.2 = Some (Fulfilled (RetRecord r)) ∧ log wc.1 = log w ∧
  length (snapshot (st wc.1)) = length l ∧
  getById id (st wc.1) = (λ item, r ∪ item) <$> getById id (st w) ∧
  (∀ id', id' ≠ id → getById id' (st wc.1) = getById id' (st w)) ∧
  (∀ item k, (r ∪ item) !! k = match r !! k with Some x => Some x | None => item !! k end) ∧
  (Forall (λ x, ¬ has_id id x) l → data (st wc.1) = Val l).
Proof.
  intros Hl Hd Hr wc. subst wc. simpl. unfold optimistic. rewrite Hd, Hl. simpl.
  unfold merge_into.
  set (merged := λ item : record, if decide (has_id id item) then r ∪ item else item).
  split_and!; try done.
  - unfold snapshot. simpl. by rewrite length_fmap.
  - unfold getById. simpl. rewrite Hd.
    rewrite (find_fmap (λ x, has_id id x) merged).
    + destruct (find _ l) as [x|] eqn:Hx; [|done]. simpl.
      apply find_first in Hx as (_ & _ & _ & _ & Hx). unfold merged. by rewrite decide_True.
    + intros x. unfold merged. destruct (decide _) as [Hx|Hx]; [|done].
      split; [done|]. intros _. by apply id_of_union.
  - intros id' Hne. unfold getById. simpl. rewrite Hd.
    rewrite (find_fmap (λ x, has_id id' x) merged).
    + destruct (find _ l) as [x|] eqn:Hx; [|done]. simpl.
      apply find_first in Hx as (_ & _ & _ & _ & Hx). unfold merged.
      rewrite decide_False; [done|]. rewrite Hx. intros [= ?]. done.
    + intros x. unfold merged. destruct (decide _) as [Hx|Hx]; [|done].
      split.
      * intros H. pose proof (id_of_union r x id Hr) as H'.
        rewrite H' in H. injection H as ?. done.
      * intros H. rewrite Hx in H. injection H as ?. done.
  - intros item k. rewrite lookup_union. destruct (r !! k), (item !! k); done.
  - intros Hnone. f_equal. clear Hd. induction Hnone as [|x l Hx _ IH]; [done|].
    rewrite fmap_cons, IH. unfold merged. by rewrite decide_False.
Qed.

Lemma update_merges_server_record_witness :
  let w := upd (set_data (Val [Samples.rec_a; Samples.rec_b])) Samples.idle_world in
  let wc := update_resume PatchInPlace Samples.tasks "a" (Resolved Samples.rec_a') w in
  length (snapshot (st wc.1)) = 2%nat ∧
  getById "b" (st wc.1) = getById "b" (st w).
Proof.
  intros w wc.
  destruct (update_merges_server_record Samples.tasks "a" Samples.rec_a'
              [Samples.rec_a; Samples.rec_b] w eq_refl eq_refl eq_refl)
    as (_ & _ & Hlen & _ & Hrest & _).
  split; [exact Hlen|]. apply Hrest. discriminate.
Defined.

(** X4.  In the patch-in-place copy without live channel, a confirmed [add]
    of a record whose identifier is new appends it, [getById] then finds
    it, and a confirmed [remove] of that identifier gives back the snapshot
    from before the [add]. *)
Theorem add_then_remove_restores
    (cfg : config) (id : string) (r : record) (l : list record) (w : world) :
  listen cfg = false → data (st w) = Val l → has_id id r →
  Forall (λ x, ¬ has_id id x) l →
  let w1 := (add_resume PatchInPlace cfg (Resolved r) w).1 in
  let w2 := (remove_resume PatchInPlace cfg id (Resolved ()) w1).1 in
  data (st w1) = Val (l ++ [r]) ∧
  getById id (st w1) = Some r ∧
  data (st w2) = Val l.
Proof.
  intros Hl Hd Hr Hnone w1 w2. subst w1 w2. simpl. unfold optimistic. rewrite Hd, Hl. simpl.
  split_and!; try done.
  - unfold getById. simpl. clear Hd. induction Hnone as [|x l Hx _ IH]; simpl.
    + by rewrite bool_decide_eq_true_2.
    + by rewrite bool_decide_eq_false_2.
  - f_equal. rewrite filter_app. rewrite filter_cons_False, filter_nil, app_nil_r.
    + by apply filter_none.
    + intros H. by apply H.
Qed.

Lemma add_then_remove_restores_witness :
  let w1 := (add_resume PatchInPlace Samples.tasks (Resolved Samples.rec_b)
               Samples.idle_world).1 in
  let w2 := (remove_resume PatchInPlace Samples.tasks "b" (Resolved ()) w1).1 in
  getById "b" (st w1) = Some Samples.rec_b ∧ data (st w2) = Val [Samples.rec_a].
Proof.
  intros w1 w2.
  assert (Hnew : Forall (λ x : record, ¬ has_id "b" x) [Samples.rec_a]).
  { constructor; [|constructor]. vm_compute. discriminate. }
  destruct (add_then_remove_restores Samples.tasks "b" Samples.rec_b [Samples.rec_a]
              Samples.idle_world eq_refl eq_refl eq_refl Hnew) as (_ & Hfound & Hback).
  split; [exact Hfound|exact Hback].
Defined.

End CollectionLists.

(** ** The collection adapter along every run *)

Module CollectionSound.
Import CollectionState.

Section Steps.
Variable cfg : config.

Lemma fetch_call_expected v s : expected_call v cfg (fetch_call cfg s).
Proof.
  unfold fetch_call, expected_call. repeat split; try done.
  unfold truthy_num. destruct (pageSizeValue cfg) as [n|]; simpl; [|done].
  destruct (Z.eqb_spec n 0); simpl; done.
Qed.

Lemma collection_busy_push (l : list frame) k :
  in_flight k = true → Forall (λ k, in_flight k = false) (l ++ [k]) → False.
Proof.
  intros Hk H. apply Forall_app in H as [_ H]. inversion H; subst. congruence.
Qed.

#[local] Arguments fetch_call : simpl never.
#[local] Arguments expected_call : simpl never.

Ltac open_world w :=
  destruct w as [[d ld er un pg tp ti] pend lg sb rs cs];
  unfold sound, steady, settled, tidy in *; simpl in *.

Ltac close :=
  split_and!; simpl; try done;
  try (apply Forall_push; [done|]; try done);
  try (intros Hbusy; exfalso; by apply collection_busy_push in Hbusy);
  try (intros Hl; apply Forall_push; [by auto|done]).

Lemma collection_sound_fetch_data v t w :
  (t = ThenSubscribe → listen cfg = true) →
  steady v cfg w → sound v cfg (fetch_data cfg t w).
Proof.
  intros Ht (Hdata & Htidy & Hlog & Hsub). open_world w.
  unfold fetch_data. close.
  - apply fetch_call_expected.
  - intros Hl. apply Forall_push; [by auto|]. destruct t; try done.
    rewrite Ht in Hl; done.
Qed.

Lemma collection_sound_mutation v c k w :
  expected_call v cfg c → in_flight k = true → subscribing k = false →
  steady v cfg w →
  sound v cfg (await c k (upd (set_error None) (upd (set_loading true) w))).
Proof.
  intros Hc Hk Hs (Hdata & Htidy & Hlog & Hsub). open_world w. close.
Qed.

Lemma collection_sound_fetch_data_resume v o w :
  steady v cfg w → sound v cfg (fetch_data_resume o w).
Proof.
  intros (Hdata & Htidy & Hlog & Hsub). open_world w.
  unfold fetch_data_resume. destruct o; close.
Qed.

Lemma collection_sound_subscribe_then v throws w :
  listen cfg = true →
  sound v cfg w → sound v cfg (subscribe_then v cfg throws w).
Proof.
  intros Hl [(Hdata & Htidy & Hlog & Hsub) Hload]. open_world w.
  unfold subscribe_then. destruct throws; close.
Qed.

Lemma collection_sound_after_mutation v f r w :
  steady v cfg w → sound v cfg (after_mutation v cfg f r w).1.
Proof.
  intros Hs. unfold after_mutation. destruct v.
  - destruct Hs as (Hdata & Htidy & Hlog & Hsub). open_world w.
    unfold optimistic. simpl. destruct d, (negb (listen cfg)); close.
  - destruct (negb (listen cfg)) eqn:Hl; simpl.
    + by apply collection_sound_fetch_data.
    + destruct Hs as (Hdata & Htidy & Hlog & Hsub). open_world w. close.
Qed.

Lemma collection_sound_mutation_failed v err w :
  steady v cfg w → sound v cfg (mutation_failed err w).1.
Proof.
  intros (Hdata & Htidy & Hlog & Hsub). open_world w. close.
Qed.

Lemma collection_sound_return_after_fetch v r o w :
  steady v cfg w → sound v cfg (return_after_fetch r o w).1.
Proof.
  intros Hs. apply (collection_sound_fetch_data_resume v o) in Hs.
  destruct Hs as [(Hdata & Htidy & Hlog & Hsub) Hload].
  unfold return_after_fetch. simpl.
  destruct (fetch_data_resume o w) as [[d ld er un pg tp ti] pend lg sb rs cs].
  unfold sound, steady, settled, tidy in *. simpl in *. close.
Qed.

Lemma collection_sound_settle v {A} (wc : world * option (completion A)) :
  sound v cfg wc.1 → sound v cfg (settle wc).
Proof. unfold settle. destruct wc as [w [[a|err]|]]; simpl; auto. Qed.

Lemma collection_sound_stop v w : sound v cfg w → sound v cfg (stop w).
Proof.
  intros [(Hdata & Htidy & Hlog & Hsub) Hload]. open_world w.
  unfold stop. simpl. destruct un as [c|]; [|close].
  destruct Htidy as (-> & Hl). close.
Qed.

Lemma collection_sound_start v w : sound v cfg w → sound v cfg (start w).
Proof.
  intros [(Hdata & Htidy & Hlog & Hsub) Hload]. open_world w. close.
  intros H. apply Forall_app in H as [H _]. auto.
Qed.

Lemma collection_sound_start_resume v w : sound v cfg w → sound v cfg (start_resume cfg w).
Proof.
  intros Hs. unfold start_resume, subscribe_to_data.
  destruct (listen cfg) eqn:Hl; [destruct (unsubscribe (st w))|]; try done.
  all: apply collection_sound_fetch_data; [done|apply Hs].
Qed.

Lemma collection_sound_turn v q w :
  steady v cfg w → sound v cfg (fetch_data cfg Done (upd (set_page q) w)).
Proof.
  intros (Hdata & Htidy & Hlog & Hsub).
  apply collection_sound_fetch_data; [done|]. open_world w. close.
Qed.

Lemma collection_sound_on_event v ev w : sound v cfg w → sound v cfg (on_event v cfg ev w).
Proof.
  intros Hs. unfold on_event. destruct v; [|apply collection_sound_fetch_data; [done|apply Hs]].
  destruct Hs as [(Hdata & Htidy & Hlog & Hsub) Hload]. open_world w.
  unfold patch_event. simpl.
  destruct (truthy d); simpl; repeat (destruct (String.eqb _ _)); close.
Qed.

Lemma collection_idle_restore (l : list frame) i k :
  l !! i = Some k → in_flight k = false →
  Forall (λ k, in_flight k = false) (delete i l) → Forall (λ k, in_flight k = false) l.
Proof.
  intros Hi Hk H. apply Forall_forall. intros k' Hin.
  apply list_elem_of_lookup in Hin as [j Hj].
  destruct (decide (j = i)) as [->|Hne]; [congruence|].
  rewrite Forall_forall in H. apply H.
  apply list_elem_of_lookup.
  destruct (decide (j < i)%nat).
  - exists j. by rewrite list_lookup_delete_lt by lia.
  - exists (pred j). rewrite list_lookup_delete_ge by lia. replace (S (pred j)) with j by lia. done.
Qed.

Lemma collection_sound_take v i k w w0 :
  take i w = Some (k, w0) → sound v cfg w →
  steady v cfg w0 ∧ (in_flight k = false → settled w0) ∧
  (subscribing k = true → listen cfg = true).
Proof.
  unfold take. destruct (pending w !! i) as [k'|] eqn:Hi; [|discriminate].
  intros [= <- <-] [(Hdata & Htidy & Hlog & Hsub) Hload]. split_and!.
  - unfold steady, tidy in *. simpl. split_and!; try done.
    intros Hl. by apply Forall_delete, Hsub.
  - intros Hk H. simpl in *. apply Hload. by eapply collection_idle_restore.
  - intros Hk. destruct (listen cfg) eqn:Hl; [done|].
    specialize (Hsub eq_refl). eapply Forall_lookup_1 in Hsub; eauto; simpl in *; congruence.
Qed.

Lemma collection_sound_step v l w w' : sound v cfg w → step v cfg l w = Some w' → sound v cfg w'.
Proof.
  intros Hs Hstep. pose proof Hs as [Hst Hld]. destruct l; simpl in Hstep.
  - injection Hstep as <-. by apply collection_sound_start.
  - injection Hstep as <-. by apply collection_sound_stop.
  - injection Hstep as <-. by apply collection_sound_fetch_data.
  - injection Hstep as <-. by apply collection_sound_mutation.
  - injection Hstep as <-. by apply collection_sound_mutation.
  - injection Hstep as <-. by apply collection_sound_mutation.
  - injection Hstep as <-. unfold nextPage. destruct (_ <? _); [|done].
    by apply collection_sound_turn.
  - injection Hstep as <-. unfold prevPage. destruct (_ <? _); [|done].
    by apply collection_sound_turn.
  - injection Hstep as <-. unfold goToPage. destruct (_ && _); [|done].
    by apply collection_sound_turn.
  - destruct (take i w) as [[k w0]|] eqn:Ht; [|discriminate].
    destruct (collection_sound_take v _ _ _ _ Ht Hs) as (Hst0 & Hidle & Hlisten).
    destruct k as [|[| |r]| | |]; simpl in Hstep.
    + destruct o as [[]|]; try discriminate. injection Hstep as <-.
      apply collection_sound_start_resume. split; [done|by apply Hidle].
    + destruct (as_list o); [|discriminate]. injection Hstep as <-.
      by apply collection_sound_fetch_data_resume.
    + destruct (as_list o); [|discriminate]. injection Hstep as <-.
      apply collection_sound_subscribe_then; [by apply Hlisten|by apply collection_sound_fetch_data_resume].
    + destruct (as_list o); [|discriminate]. injection Hstep as <-.
      by apply collection_sound_settle, collection_sound_return_after_fetch.
    + destruct (as_one o) as [[r|err]|]; [| |discriminate]; injection Hstep as <-;
        apply collection_sound_settle; [by apply collection_sound_after_mutation|by apply collection_sound_mutation_failed].
    + destruct (as_one o) as [[r|err]|]; [| |discriminate]; injection Hstep as <-;
        apply collection_sound_settle; [by apply collection_sound_after_mutation|by apply collection_sound_mutation_failed].
    + destruct (as_unit o) as [[r|err]|]; [| |discriminate]; injection Hstep as <-;
        apply collection_sound_settle; [by apply collection_sound_after_mutation|by apply collection_sound_mutation_failed].
  - destruct (subs w !! i); [|discriminate]. injection Hstep as <-.
    by apply collection_sound_on_event.
Qed.

Lemma collection_reachable_sound v w : reachable v cfg w → sound v cfg w.
Proof.
  intros [tr Hrun]. eapply (run_steps_invariant (step v cfg) (sound v cfg)); [|..|exact Hrun].
  - intros l w1 w2. apply collection_sound_step.
  - unfold sound, steady, settled, tidy, init. simpl. split_and!; try done.
Qed.
Lemma collection_sound_foreign v t w :
  sound v cfg w → sound v cfg (foreign_unsubscribe cfg t w).
Proof.
  intros [(Hdata & Htidy & Hlog & Hsub) Hload]. open_world w.
  unfold foreign_unsubscribe. simpl. split_and!; try done.
  destruct un; [done|]. subst sb. by destruct t.
Qed.

Lemma collection_shared_sound v w : shared_reachable v cfg w → sound v cfg w.
Proof.
  intros [tr Hrun].
  eapply (run_steps_invariant (shared_step v cfg) (sound v cfg)); [|..|exact Hrun].
  - intros [l|t] w1 w2 Hs; simpl.
    + by apply collection_sound_step.
    + intros [= <-]. by apply collection_sound_foreign.
  - unfold sound, steady, settled, tidy, init. simpl. split_and!; try done.
Qed.
End Steps.

Lemma snapshot_stays v cfg l w w' :
  step v cfg l w = Some w' →
  data (st w') = data (st w) ∨ ∃ items, data (st w') = Val items.
Proof.
  intros Hstep. destruct w as [[d ld er un pg tp ti] pend lg sb rs cs].
  destruct l; simpl in Hstep.
  1-9: injection Hstep as <-;
    unfold start, stop, refetch, add, update, remove, nextPage, prevPage, goToPage; simpl;
    repeat match goal with |- context [if ?b then _ else _] => destruct b end;
    repeat match goal with |- context [match ?x with _ => _ end] => destruct x end;
    simpl; auto.
  - unfold take in Hstep. simpl in Hstep. destruct (pend !! i) as [k|]; [|discriminate].
    destruct k as [|[| |r]| | |]; simpl in Hstep.
    + destruct o as [[]|]; try discriminate. injection Hstep as <-.
      unfold start_resume, subscribe_to_data. simpl. destruct (listen cfg), un; simpl; auto.
    + destruct (as_list o) as [[r|err]|]; [| |discriminate]; injection Hstep as <-; simpl; eauto.
    + destruct (as_list o) as [[r|err]|]; [| |discriminate]; injection Hstep as <-;
        unfold subscribe_then; destruct throws; simpl; eauto.
    + destruct (as_list o) as [[r'|err]|]; [| |discriminate]; injection Hstep as <-; simpl; eauto.
    + destruct (as_one o) as [[r|err]|]; [| |discriminate]; injection Hstep as <-;
        unfold settle, add_resume, after_mutation, optimistic; simpl; auto.
      destruct v; simpl; [destruct d|]; destruct (negb (listen cfg)); simpl; eauto.
    + destruct (as_one o) as [[r|err]|]; [| |discriminate]; injection Hstep as <-;
        unfold settle, update_resume, after_mutation, optimistic; simpl; auto.
      destruct v; simpl; [destruct d|]; destruct (negb (listen cfg)); simpl; eauto.
    + destruct (as_unit o) as [[r|err]|]; [| |discriminate]; injection Hstep as <-;
        unfold settle, remove_resume, after_mutation, optimistic; simpl; auto.
      destruct v; simpl; [destruct d|]; destruct (negb (listen cfg)); simpl; eauto.
  - destruct (sb !! i); [|discriminate]. injection Hstep as <-.
    unfold on_event. destruct v; simpl; auto.
    unfold patch_event. simpl. destruct (truthy d); simpl; repeat (destruct (String.eqb _ _)); simpl; eauto.
Qed.


Lemma collection_shared_run v cfg tr w w' :
  shared_reachable v cfg w → run_steps (shared_step v cfg) tr w = Some w' →
  shared_reachable v cfg w'.
Proof.
  intros [tr0 Hrun] Htr. exists (tr0 ++ tr). unfold shared_run in *.
  rewrite run_steps_app, Hrun. exact Htr.
Qed.

Lemma shared_snapshot_stays v cfg l w w' :
  shared_step v cfg l w = Some w' →
  data (st w') = data (st w) ∨ ∃ items, data (st w') = Val items.
Proof.
  destruct l as [l|t]; simpl; [apply snapshot_stays|].
  intros [= <-]. by left.
Qed.

(** X5.  Every remote call a collection adapter has issued, in either copy,
    after any sequence of method calls, settled promises and live events,
    and whatever other users of the client unsubscribe meanwhile, is one
    of: a list query on the configured collection with a page size other
    than 0 that names its page in the options as well; a create, update or
    delete on the configured collection; or, only when [listen] is set, a
    subscription to the adapter's topic or the closing of the collection's
    channels.  It never fetches a single record and never authenticates. *)
Theorem collection_calls_expected (v : impl) (cfg : config) (w : world) :
  shared_reachable v cfg w → Forall (expected_call v cfg) (log w).
Proof.
  intros Hr. by destruct (collection_shared_sound cfg v w Hr) as [(_ & _ & H & _) _].
Qed.

Lemma collection_calls_expected_witness :
  ∃ w, shared_run PatchInPlace Samples.live_tasks Samples.crowded_trace = Some w ∧
       length (log w) = 9%nat ∧
       Forall (expected_call PatchInPlace Samples.live_tasks) (log w).
Proof.
  eexists. split; [vm_compute; reflexivity|]. split; [reflexivity|].
  apply collection_calls_expected. exists Samples.crowded_trace. vm_compute. reflexivity.
Defined.

(** X6.  In every collection adapter, in either copy, reached through its
    own steps and through unsubscribe calls of other users of the shared
    client: without a teardown closure the adapter has no callback on the
    live channel, and a closure that is held closes the collection's
    channels and exists only when [listen] is set.  [stop] then leaves no
    callback of the adapter, however many racing starts registered, issues
    one unsubscribe call when a closure was held and none otherwise, and
    drops the closure, so that a second [stop] changes nothing. *)
Theorem collection_stop_closes_channel (v : impl) (cfg : config) (w : world) :
  shared_reachable v cfg w →
  (unsubscribe (st w) = None → subs w = []) ∧
  (∀ c, unsubscribe (st w) = Some c →
        c = Unsubscribe (collectionName cfg) None ∧ listen cfg = true) ∧
  subs (stop w) = [] ∧
  unsubscribe (st (stop w)) = None ∧
  log (stop w) = log w ++ match unsubscribe (st w) with
                          | Some c => [c]
                          | None => []
                          end ∧
  stop (stop w) = stop w.
Proof.
  intros Hr. destruct (collection_shared_sound cfg v w Hr) as [(_ & Ht & _ & _) _].
  unfold tidy in Ht. unfold stop.
  destruct w as [[d ld er un pg tp ti] pend lg sb rs cs]. simpl in *.
  destruct un as [c|].
  - destruct Ht as (-> & Hl). simpl. split_and!; try done. by intros c [= <-].
  - subst sb. simpl. rewrite app_nil_r. split_and!; done.
Qed.

Lemma collection_stop_closes_channel_witness :
  ∃ w, shared_run PatchInPlace Samples.live_tasks Samples.crowded_trace = Some w ∧
       subs w = [Samples.star; Samples.star] ∧
       subs (stop w) = [] ∧
       log (stop w) = log w ++ [Unsubscribe "tasks" None].
Proof.
  eexists. split; [vm_compute; reflexivity|]. split; [reflexivity|].
  match goal with
  | |- subs (stop ?w) = _ ∧ _ =>
      destruct (collection_stop_closes_channel PatchInPlace Samples.live_tasks w)
        as (_ & _ & Hs & _ & Hl & _);
        [exists Samples.crowded_trace; vm_compute; reflexivity|]
  end.
  split; [exact Hs|exact Hl].
Defined.

(** X7.  In every reachable collection adapter, in either copy, the
    [loading] flag is down whenever no call to the store is in flight: no
    error path and no interleaving leaves the flag up. *)
Theorem collection_loading_settles (v : impl) (cfg : config) (w : world) :
  reachable v cfg w →
  Forall (λ k, in_flight k = false) (pending w) → loading (st w) = false.
Proof. intros Hr. by destruct (collection_reachable_sound cfg v w Hr) as [_ H]. Qed.

Lemma collection_loading_settles_witness :
  ∃ w, run RefetchOnChange Samples.tasks
         [CallRefetch; CallAdd Samples.rec_x; Settle 0 (Rejected Samples.offline) None;
          Settle 0 (Rejected Samples.offline) None] = Some w ∧
       pending w = [] ∧ loading (st w) = false.
Proof.
  eexists. split; [vm_compute; reflexivity|]. split; [reflexivity|].
  eapply (collection_loading_settles RefetchOnChange Samples.tasks).
  - exists [CallRefetch; CallAdd Samples.rec_x; Settle 0 (Rejected Samples.offline) None;
            Settle 0 (Rejected Samples.offline) None].
    vm_compute. reflexivity.
  - constructor.
Defined.

(** X8.  As long as only the class itself writes [data], that is through
    method calls, settled promises and live events, with other users of the
    client unsubscribing at will, the snapshot of a collection adapter is
    never [null], and once it is a list it stays a list whatever happens
    next: failures and live events replace the list, they never unset
    it. *)
Theorem collection_snapshot_stays_list
    (v : impl) (cfg : config) (w w' : world) (tr : list shared_label) :
  shared_reachable v cfg w → run_steps (shared_step v cfg) tr w = Some w' →
  data (st w') ≠ Null ∧
  ((∃ l, data (st w) = Val l) → ∃ l', data (st w') = Val l').
Proof.
  intros Hr Hrun.
  destruct (collection_shared_sound cfg v w' (collection_shared_run _ _ _ _ _ Hr Hrun))
    as [(Hd & _) _].
  split; [done|].
  intros Hlist.
  eapply (run_steps_invariant (shared_step v cfg) (λ w, ∃ l, data (st w) = Val l));
    [|exact Hlist|exact Hrun].
  intros l w1 w2 [items Hi] Hs. destruct (shared_snapshot_stays _ _ _ _ _ Hs) as [He|He]; [|done].
  exists items. by rewrite He.
Qed.

Lemma collection_snapshot_stays_list_witness :
  ∃ w', run_steps (shared_step PatchInPlace Samples.live_tasks)
          [Own (Deliver 0 (mkEvent "delete" Samples.rec_a)); Foreign None;
           Own CallRefetch; Own (Settle 0 (Rejected Samples.offline) None)]
          Samples.live_world = Some w' ∧
        data (st w') ≠ Null ∧ ∃ l', data (st w') = Val l'.
Proof.
  eexists. split; [vm_compute; reflexivity|].
  assert (Hr : shared_reachable PatchInPlace Samples.live_tasks Samples.live_world).
  { exists (Own <$> Samples.live_trace). vm_compute. reflexivity. }
  match goal with
  | |- data (st ?w') ≠ Null ∧ _ =>
      destruct (collection_snapshot_stays_list PatchInPlace Samples.live_tasks
                  Samples.live_world w'
                  [Own (Deliver 0 (mkEvent "delete" Samples.rec_a)); Foreign None;
                   Own CallRefetch; Own (Settle 0 (Rejected Samples.offline) None)] Hr)
        as (Hd & Hl); [vm_compute; reflexivity|]
  end.
  split; [exact Hd|]. apply Hl. eexists. reflexivity.
Defined.

(** X9.  When the client's [subscribe] throws, the collection adapter keeps
    the snapshot it just fetched, stores the failure in [error], hands it to
    no caller, registers no callback and leaves the teardown closure as it
    was.  On a listening adapter the next [start] then fetches and
    subscribes again if no closure was held; if one was held, as after a
    racing start whose subscription went through, the next [start] does
    nothing and the failed subscription is not retried. *)
Theorem subscribe_failure_effect
    (v : impl) (cfg : config) (err : thrown) (w : world) :
  data (st (subscribe_then v cfg (Some err) w)) = data (st w) ∧
  error (st (subscribe_then v cfg (Some err) w)) = Some (as_error err) ∧
  raised (subscribe_then v cfg (Some err) w) = raised w ∧
  subs (subscribe_then v cfg (Some err) w) = subs w ∧
  unsubscribe (st (subscribe_then v cfg (Some err) w)) = unsubscribe (st w) ∧
  log (subscribe_then v cfg (Some err) w)
  = log w ++ [Subscribe (collectionName cfg) (topic v cfg)] ∧
  (listen cfg = true → unsubscribe (st w) = None →
     start_resume cfg (subscribe_then v cfg (Some err) w)
     = fetch_data cfg ThenSubscribe (subscribe_then v cfg (Some err) w)) ∧
  (listen cfg = true → unsubscribe (st w) ≠ None →
     start_resume cfg (subscribe_then v cfg (Some err) w)
     = subscribe_then v cfg (Some err) w).
Proof.
  unfold start_resume, subscribe_to_data, subscribe_then. simpl.
  split_and!; try done.
  - intros -> ->. reflexivity.
  - intros ->. by destruct (unsubscribe (st w)).
Qed.

(** X10.  [stop] cancels nothing: a [start] that is still waiting when the
    adapter is torn down goes on afterwards, fetches, and opens the live
    channel of a listening adapter, leaving a callback registered and a
    teardown closure held after the teardown. *)
Theorem stop_leaves_start_in_progress
    (v : impl) (cfg : config) (w : world) (i : nat) (r : list_result) :
  pending w !! i = Some KInit → listen cfg = true →
  pending (stop w) = pending w ∧
  ∃ w1 w2,
    step v cfg (Settle i (Resolved RUnit) None) (stop w) = Some w1 ∧
    log w1 = log (stop w) ++ [fetch_call cfg (st w)] ∧
    pending w1 = delete i (pending w) ++ [KFetch ThenSubscribe] ∧
    step v cfg (Settle (length (delete i (pending w))) (Resolved (RList r)) None) w1
      = Some w2 ∧
    pending w2 = delete i (pending w) ∧
    subs w2 = subs (stop w) ++ [topic v cfg] ∧
    unsubscribe (st w2) = Some (Unsubscribe (collectionName cfg) None).
Proof.
  intros Hi Hl.
  assert (Hp : pending (stop w) = pending w).
  { unfold stop. by destruct (unsubscribe (st w)). }
  assert (Hu : unsubscribe (st (stop w)) = None).
  { unfold stop. by destruct (unsubscribe (st w)) eqn:Hu. }
  assert (Hpg : fetch_call cfg (st (stop w)) = fetch_call cfg (st w)).
  { unfold stop. by destruct (unsubscribe (st w)). }
  split; [done|].
  destruct (stop w) as [s pend lg sb rs cs] eqn:Hw. simpl in *. subst pend.
  eexists _, _. split_and!.
  - unfold take. simpl. rewrite Hi. simpl.
    unfold start_resume, subscribe_to_data. rewrite Hl. simpl. rewrite Hu. reflexivity.
  - simpl. by rewrite <- Hpg.
  - reflexivity.
  - unfold take. simpl. rewrite lookup_app_r by done. rewrite Nat.sub_diag. simpl.
    reflexivity.
  - simpl. apply delete_push.
  - reflexivity.
  - reflexivity.
Qed.

Lemma stop_leaves_start_in_progress_witness :
  ∃ w w2,
    run PatchInPlace Samples.live_tasks [CallStart] = Some w ∧
    run PatchInPlace Samples.live_tasks
      [CallStart; CallStop; Settle 0 (Resolved RUnit) None;
       Settle 0 (Samples.page_of [Samples.rec_a] 1 1) None] = Some w2 ∧
    subs w2 = [Samples.star] ∧
    unsubscribe (st w2) = Some (Unsubscribe "tasks" None).
Proof.
  eexists _, _. split; [vm_compute; reflexivity|]. split; [vm_compute; reflexivity|].
  destruct (stop_leaves_start_in_progress PatchInPlace Samples.live_tasks
              (start init) 0 (mkList [Samples.rec_a] 1 1)
              eq_refl eq_refl) as (_ & w1 & w2 & H1 & _ & _ & H2 & _ & Hs & Hu).
  vm_compute in H1. injection H1 as <-.
  vm_compute in H2. injection H2 as <-.
  split; [exact Hs|exact Hu].
Defined.

End CollectionSound.

(** ** What the document adapter fetches and watches *)

Module RecordFetching.
Import RecordState.




End RecordFetching.

(** ** The document adapter along every run *)

Module RecordSound.
Import RecordState.

Section Steps.
Variable cfg : config.

Lemma record_busy_push (l : list frame) k :
  in_flight k = true → Forall (λ k, in_flight k = false) (l ++ [k]) → False.
Proof.
  intros Hk H. apply Forall_app in H as [_ H]. inversion H; subst. congruence.
Qed.

Lemma save_call_expected r :
  expected_call cfg (Update (collectionName cfg) (id_of r) (strip r)).
Proof.
  split; [done|]. intros k Hk. rewrite Saving.strip_lookup. by rewrite decide_True.
Qed.

#[local] Arguments expected_call : simpl never.
#[local] Arguments strip : simpl never.

Ltac open_world w :=
  destruct w as [[d ld er un] pend lg sb rs cs];
  unfold sound, steady, settled, tidy in *; simpl in *.

Ltac close :=
  split_and!; simpl; try done;
  try (apply Forall_push; [done|]; try done);
  try (intros Hbusy; exfalso; by apply record_busy_push in Hbusy);
  try (intros Hl; apply Forall_push; [by auto|done]).

Lemma record_sound_save who w : steady cfg w → settled w → sound cfg (save cfg who w).1.
Proof.
  intros (Htidy & Hlog & Hsub) Hload. open_world w. unfold save. simpl.
  destruct d; simpl; close. all: apply save_call_expected.
Qed.

(** After the setter the world is steady; it is settled if it was, or if
    the flag is cleared next. *)
Lemma record_steady_set_data value w : steady cfg w → steady cfg (set_data cfg value w).
Proof.
  intros (Htidy & Hlog & Hsub). open_world w. unfold set_data, save. simpl.
  destruct (autosaveEnabled cfg), value; simpl; close. all: apply save_call_expected.
Qed.

Lemma record_pending_set_data value w :
  pending (set_data cfg value w) = pending w ∨
  pending (set_data cfg value w) = pending w ++ [KSave ByAutosave].
Proof.
  unfold set_data, save. destruct (autosaveEnabled cfg), value; simpl; auto.
Qed.

Lemma record_sound_cleared w : steady cfg w → sound cfg (upd (set_loading false) w).
Proof. intros (Htidy & Hlog & Hsub). open_world w. close. Qed.

Lemma record_sound_set_data value w : sound cfg w → sound cfg (set_data cfg value w).
Proof.
  intros [Hst Hload]. split; [by apply record_steady_set_data|].
  destruct Hst as (Htidy & Hlog & Hsub). open_world w. unfold set_data, save. simpl.
  destruct (autosaveEnabled cfg), value; simpl; try done.
  intros Hbusy; exfalso; by apply record_busy_push in Hbusy.
Qed.

Lemma record_steady_upd f w :
  (∀ s, unsubscribe (f s) = unsubscribe s) → steady cfg w → steady cfg (upd f w).
Proof.
  intros Hf (Htidy & Hlog & Hsub). destruct w as [s pend lg sb rs cs].
  unfold steady, tidy in *. simpl in *. by rewrite Hf.
Qed.

Lemma record_sound_save_resume o w : steady cfg w → sound cfg (save_resume cfg o w).1.
Proof.
  intros Hst. unfold save_resume. destruct o; simpl.
  - apply record_sound_cleared. destruct (negb _); [by apply record_steady_set_data|done].
  - apply record_sound_cleared. by apply record_steady_upd.
Qed.

Lemma record_sound_fetch_failed err w : steady cfg w → steady cfg (fetch_failed cfg err w).
Proof. intros Hst. unfold fetch_failed. apply record_steady_set_data. by apply record_steady_upd. Qed.

Lemma record_sound_fetch_one_resume o w : steady cfg w → sound cfg (fetch_one_resume cfg o w).
Proof.
  intros Hst. unfold fetch_one_resume. apply record_sound_cleared.
  destruct o; [by apply record_steady_set_data|by apply record_sound_fetch_failed].
Qed.

Lemma record_sound_fetch_list_resume o w : steady cfg w → sound cfg (fetch_list_resume cfg o w).
Proof.
  intros Hst. unfold fetch_list_resume. apply record_sound_cleared.
  destruct o as [r|err]; [|by apply record_sound_fetch_failed].
  destruct (items r); by apply record_steady_set_data.
Qed.

Lemma truthy_str_Some o : truthy_str o = true → ∃ s, o = Some s ∧ s ≠ "".
Proof.
  destruct o as [s|]; simpl; [|done]. intros H. exists s. split; [done|].
  intros ->. done.
Qed.

Lemma record_sound_fetch_data t w :
  (t = ThenSubscribe → listen cfg = true) →
  steady cfg w → sound cfg (fetch_data cfg t w).
Proof.
  intros Ht Hst. unfold fetch_data.
  destruct (truthy_str (recordId cfg)) eqn:Hid;
    [|destruct (truthy_str (filterQuery cfg)) eqn:Hf].
  - destruct (truthy_str_Some _ Hid) as (s & Hs & Hne). rewrite Hs. simpl.
    destruct Hst as (Htidy & Hlog & Hsub). open_world w. close.
    intros Hl. apply Forall_push; [by auto|]. destruct t; try done. rewrite Ht in Hl; done.
  - destruct Hst as (Htidy & Hlog & Hsub). open_world w. close.
    intros Hl. apply Forall_push; [by auto|]. destruct t; try done. rewrite Ht in Hl; done.
  - assert (Hs : sound cfg (upd (set_loading false)
               (set_data cfg Null (upd (set_error None) (upd (set_loading true) w))))).
    { apply record_sound_cleared, record_steady_set_data. by repeat apply record_steady_upd. }
    destruct t; [done|].
    destruct Hs as [(Htidy & Hlog & Hsub) Hload]. unfold set_data in *.
    rewrite andb_false_r in *. open_world w. close.
    intros Hl. rewrite Ht in Hl; done.
Qed.

Lemma record_sound_subscribe_then throws w :
  listen cfg = true → sound cfg w → sound cfg (subscribe_then cfg throws w).
Proof.
  intros Hl [(Htidy & Hlog & Hsub) Hload]. unfold subscribe_then.
  destruct (truthy_val (channel_id cfg (st w))) eqn:Hid; simpl; [|done].
  open_world w. destruct throws; close.
  eexists. split_and!; done.
Qed.

Lemma record_sound_and_then t throws w :
  (t = ThenSubscribe → listen cfg = true) → sound cfg w → sound cfg (and_then cfg t throws w).
Proof. intros Ht Hs. destruct t; [done|]. by apply record_sound_subscribe_then, Hs; auto. Qed.

Lemma record_sound_settle {A} (wc : world * option (completion A)) :
  sound cfg wc.1 → sound cfg (settle wc).
Proof. unfold settle. destruct wc as [w [[a|err]|]]; simpl; auto. Qed.

Lemma record_sound_autosave_catch wc : sound cfg wc.1 → sound cfg (autosave_catch wc).
Proof. unfold autosave_catch. destruct wc as [w [[a|err]|]]; simpl; auto. Qed.

Lemma record_sound_stop w : sound cfg w → sound cfg (stop w).
Proof.
  intros [(Htidy & Hlog & Hsub) Hload]. open_world w.
  unfold stop. simpl. destruct un as [c|]; [|close].
  destruct Htidy as (t & -> & Ht & Hl). close.
Qed.

Lemma record_sound_start w : sound cfg w → sound cfg (start w).
Proof.
  intros [(Htidy & Hlog & Hsub) Hload]. open_world w. close.
  intros H. apply Forall_app in H as [H _]. auto.
Qed.

Lemma record_sound_start_resume w : sound cfg w → sound cfg (start_resume cfg w).
Proof.
  intros Hs. unfold start_resume, subscribe_to_data.
  destruct (listen cfg) eqn:Hl; [destruct (unsubscribe (st w))|]; try done.
  all: apply record_sound_fetch_data; [done|apply Hs].
Qed.

Lemma record_sound_updateField field value w :
  sound cfg w → sound cfg (updateField cfg field value w).1.
Proof.
  intros Hs. unfold updateField. destruct (data (st w)) as [| |r]; simpl; try done.
  destruct (negb _); simpl; [|by apply record_sound_set_data].
  apply (record_sound_set_data (Val (<[field:=value]> r))) in Hs.
  destruct Hs as [Hst Hld]. by apply record_sound_save.
Qed.

Lemma record_sound_on_event ev w : sound cfg w → sound cfg (on_event cfg ev w).
Proof.
  intros Hs. unfold on_event. repeat destruct (String.eqb _ _); try done;
    by apply record_sound_set_data.
Qed.

Lemma record_idle_restore (l : list frame) i k :
  l !! i = Some k → in_flight k = false →
  Forall (λ k, in_flight k = false) (delete i l) → Forall (λ k, in_flight k = false) l.
Proof.
  intros Hi Hk H. apply Forall_forall. intros k' Hin.
  apply list_elem_of_lookup in Hin as [j Hj].
  destruct (decide (j = i)) as [->|Hne]; [congruence|].
  rewrite Forall_forall in H. apply H.
  apply list_elem_of_lookup.
  destruct (decide (j < i)%nat).
  - exists j. by rewrite list_lookup_delete_lt by lia.
  - exists (pred j). rewrite list_lookup_delete_ge by lia. replace (S (pred j)) with j by lia. done.
Qed.

Lemma record_sound_take i k w w0 :
  take i w = Some (k, w0) → sound cfg w →
  steady cfg w0 ∧ (in_flight k = false → settled w0) ∧
  (subscribing k = true → listen cfg = true).
Proof.
  unfold take. destruct (pending w !! i) as [k'|] eqn:Hi; [|discriminate].
  intros [= <- <-] [(Htidy & Hlog & Hsub) Hload]. split_and!.
  - unfold steady, tidy in *. simpl. split_and!; try done.
    intros Hl. by apply Forall_delete, Hsub.
  - intros Hk H. simpl in *. apply Hload. by eapply record_idle_restore.
  - intros Hk. destruct (listen cfg) eqn:Hl; [done|].
    specialize (Hsub eq_refl). eapply Forall_lookup_1 in Hsub; eauto; simpl in *; congruence.
Qed.

Lemma record_sound_step l w w' : sound cfg w → step cfg l w = Some w' → sound cfg w'.
Proof.
  intros Hs Hstep. pose proof Hs as [Hst Hld]. destruct l; simpl in Hstep.
  - injection Hstep as <-. by apply record_sound_start.
  - injection Hstep as <-. by apply record_sound_stop.
  - injection Hstep as <-. by apply record_sound_fetch_data.
  - injection Hstep as <-. by apply record_sound_settle, record_sound_save.
  - injection Hstep as <-. by apply record_sound_settle, record_sound_updateField.
  - injection Hstep as <-. by apply record_sound_set_data.
  - destruct (take i w) as [[k w0]|] eqn:Ht; [|discriminate].
    destruct (record_sound_take _ _ _ _ Ht Hs) as (Hst0 & Hidle & Hlisten).
    destruct k as [|t|t| |[|]]; simpl in Hstep.
    + destruct o as [[]|]; try discriminate. injection Hstep as <-.
      apply record_sound_start_resume. split; [done|by apply Hidle].
    + destruct (as_one o); [|discriminate]. injection Hstep as <-.
      apply record_sound_and_then; [|by apply record_sound_fetch_one_resume].
      intros ->. by apply Hlisten.
    + destruct (as_list o); [|discriminate]. injection Hstep as <-.
      apply record_sound_and_then; [|by apply record_sound_fetch_list_resume].
      intros ->. by apply Hlisten.
    + destruct o as [[]|]; try discriminate. injection Hstep as <-.
      apply record_sound_subscribe_then; [by apply Hlisten|]. split; [done|by apply Hidle].
    + destruct (as_one o); [|discriminate]. injection Hstep as <-.
      by apply record_sound_settle, record_sound_save_resume.
    + destruct (as_one o); [|discriminate]. injection Hstep as <-.
      by apply record_sound_autosave_catch, record_sound_save_resume.
  - destruct (subs w !! i); [|discriminate]. injection Hstep as <-.
    by apply record_sound_on_event.
Qed.

Lemma record_reachable_sound w : reachable cfg w → sound cfg w.
Proof.
  intros [tr Hrun]. eapply (run_steps_invariant (step cfg) (sound cfg)); [|..|exact Hrun].
  - intros l w1 w2. apply record_sound_step.
  - unfold sound, steady, settled, tidy, init. simpl. split_and!; try done.
Qed.
Lemma record_sound_foreign t w : sound cfg w → sound cfg (foreign_unsubscribe cfg t w).
Proof.
  intros [(Htidy & Hlog & Hsub) Hload]. open_world w.
  unfold foreign_unsubscribe. simpl. split_and!; done.
Qed.

Lemma record_shared_sound w : shared_reachable cfg w → sound cfg w.
Proof.
  intros [tr Hrun].
  eapply (run_steps_invariant (shared_step cfg) (sound cfg)); [|..|exact Hrun].
  - intros [l|t] w1 w2 Hs; simpl.
    + by apply record_sound_step.
    + intros [= <-]. by apply record_sound_foreign.
  - unfold sound, steady, settled, tidy, init. simpl. split_and!; try done.
Qed.
End Steps.


(** X13.  Every remote call a document adapter has issued, after any
    sequence of method calls, assignments, settled promises and live events,
    is one of: a fetch of the configured, non-empty identifier; a list query
    for one record with the configured filter, only when no identifier is
    configured; an update of the configured collection whose body carries
    none of the fields [id], [created], [updated], [collectionId],
    [collectionName]; or, only when [listen] is set, a subscription to a
    truthy identifier or its closing.  It never creates or deletes. *)
Theorem record_calls_expected (cfg : config) (w : world) :
  reachable cfg w → Forall (expected_call cfg) (log w).
Proof. intros Hr. by destruct (record_reachable_sound cfg w Hr) as [(_ & H & _) _]. Qed.

Lemma record_calls_expected_witness :
  ∃ w, run Samples.profile Samples.edit_trace = Some w ∧
       length (log w) = 2%nat ∧ Forall (expected_call Samples.profile) (log w).
Proof.
  eexists. split; [vm_compute; reflexivity|]. split; [reflexivity|].
  apply record_calls_expected. exists Samples.edit_trace. vm_compute. reflexivity.
Defined.

(** X14.  In every reachable document adapter the [loading] flag is down
    whenever no call to the store is in flight, also after failed fetches,
    failed saves and failed autosaves. *)
Theorem record_loading_settles (cfg : config) (w : world) :
  reachable cfg w →
  Forall (λ k, in_flight k = false) (pending w) → loading (st w) = false.
Proof. intros Hr. by destruct (record_reachable_sound cfg w Hr) as [_ H]. Qed.

Lemma record_loading_settles_witness :
  ∃ w, run Samples.profile Samples.edit_trace = Some w ∧
       pending w = [] ∧ loading (st w) = false.
Proof.
  eexists. split; [vm_compute; reflexivity|]. split; [reflexivity|].
  apply (record_loading_settles Samples.profile).
  - exists Samples.edit_trace. vm_compute. reflexivity.
  - constructor.
Defined.

(** X15.  In every document adapter reached through its own steps and
    through unsubscribe calls of other users of the shared client, a
    teardown closure that is held exists only when [listen] is set and
    closes the channel of one truthy identifier.  [stop] then issues that
    one unsubscribe call, leaves no callback of the adapter under that
    identifier, leaves those under other identifiers in place, and drops
    the closure, so that a second [stop] changes nothing. *)
Theorem record_stop_closes_channel (cfg : config) (w : world) (c : call) :
  shared_reachable cfg w → unsubscribe (st w) = Some c →
  listen cfg = true ∧
  ∃ t, c = Unsubscribe (collectionName cfg) t ∧ truthy_val t = true ∧
       (t ∉ subs (stop w)) ∧
       subs (stop w) = filter (λ t', t' ≠ t) (subs w) ∧
       log (stop w) = log w ++ [c] ∧
       unsubscribe (st (stop w)) = None ∧
       stop (stop w) = stop w.
Proof.
  intros Hr Hu. destruct (record_shared_sound cfg w Hr) as [(Ht & _ & _) _].
  unfold tidy in Ht. rewrite Hu in Ht. destruct Ht as (t & -> & Htr & Hl).
  assert (Hf : unregister (Unsubscribe (collectionName cfg) t) (subs w)
               = filter (λ t', t' ≠ t) (subs w)).
  { unfold unregister. destruct t; [done|]. discriminate. }
  split; [done|]. exists t. unfold stop. rewrite Hu. cbn [st subs log set_subs emit upd].
  rewrite Hf. split_and!; try done.
  intros Hx. apply list_elem_of_filter in Hx as [Hx _]. done.
Qed.

Lemma record_stop_closes_channel_witness :
  ∃ w, shared_run Samples.live_profile Samples.shared_attach_trace = Some w ∧
       subs w = [] ∧
       unsubscribe (st w) = Some (Unsubscribe "profiles" (Some (VStr "r1"))) ∧
       subs (stop w) = [] ∧
       log (stop w) = log w ++ [Unsubscribe "profiles" (Some (VStr "r1"))].
Proof.
  eexists. split; [vm_compute; reflexivity|]. split; [reflexivity|].
  split; [reflexivity|].
  match goal with
  | |- subs (stop ?w) = _ ∧ _ =>
      destruct (record_stop_closes_channel Samples.live_profile w
                  (Unsubscribe "profiles" (Some (VStr "r1"))))
        as (_ & t & Hc & _ & _ & Hs & Hl & _);
        [exists Samples.shared_attach_trace; vm_compute; reflexivity|reflexivity|]
  end.
  injection Hc as <-. split; [|exact Hl]. rewrite Hs. vm_compute. reflexivity.
Defined.

End RecordSound.

(** ** Live events and field updates of the document adapter *)

Module RecordEdits.
Import RecordState.

(** X16.  The callback of the document adapter's live channel: an update
    event replaces the snapshot by the event's record, whatever identifier
    either of them carries; with autosave that assignment sends the record
    straight back to the store as an update, without autosave it issues no
    call.  A delete event sets the snapshot to [null] and issues no call.
    Any other event, a create included, changes nothing.  No event touches
    the channel or hands a failure to a caller. *)
Theorem record_event_effect (cfg : config) (ev : event) (w : world) :
  subs (on_event cfg ev w) = subs w ∧
  unsubscribe (st (on_event cfg ev w)) = unsubscribe (st w) ∧
  raised (on_event cfg ev w) = raised w ∧
  (action ev = "update" →
     data (st (on_event cfg ev w)) = Val (ev_record ev) ∧
     log (on_event cfg ev w)
     = log w ++ (if autosaveEnabled cfg
                 then [Update (collectionName cfg) (id_of (ev_record ev))
                              (strip (ev_record ev))]
                 else [])) ∧
  (action ev = "delete" →
     data (st (on_event cfg ev w)) = Null ∧
     log (on_event cfg ev w) = log w ∧ pending (on_event cfg ev w) = pending w) ∧
  (action ev ≠ "update" → action ev ≠ "delete" → on_event cfg ev w = w).
Proof.
  unfold on_event, set_data, save.
  destruct (String.eqb_spec (action ev) "update") as [Hu|Hu];
    [|destruct (String.eqb_spec (action ev) "delete") as [Hd|Hd]].
  - destruct (autosaveEnabled cfg); simpl; split_and!; try done.
    + intros Hd. rewrite Hu in Hd. discriminate.
    + by rewrite app_nil_r.
    + intros Hd. rewrite Hu in Hd. discriminate.
  - rewrite andb_false_r. simpl. split_and!; done.
  - split_and!; done.
Qed.

Lemma strip_insert_reserved (r : record) (field : string) (value : value) :
  field ∈ reserved → strip (<[field := value]> r) = strip r.
Proof.
  intros Hf. apply map_eq. intros k. rewrite !Saving.strip_lookup.
  destruct (decide (k ∈ reserved)) as [Hk|Hk]; [done|].
  rewrite lookup_insert_ne; [done|]. by intros ->.
Qed.

Lemma strip_insert_plain (r : record) (field : string) (value : value) :
  field ∉ reserved → strip (<[field := value]> r) = <[field := value]> (strip r).
Proof.
  intros Hf. apply map_eq. intros k. rewrite Saving.strip_lookup.
  destruct (decide (k = field)) as [->|Hne].
  - rewrite decide_False by done. by rewrite !lookup_insert_eq.
  - rewrite !lookup_insert_ne by done. by rewrite Saving.strip_lookup.
Qed.

(** X17.  Without autosave, [updateField] on a record patches the field
    into the snapshot and sends one update that carries the patched record
    without its reserved fields, addressed to the identifier of the patched
    record: a change to a reserved field is not sent, while a change to [id]
    redirects the update to the new identifier.  When the store rejects the
    update the patched snapshot stays in place, the failure is stored in
    [error], [loading] is cleared and the caller gets the failure. *)
Theorem updateField_sends_patched_record
    (cfg : config) (field : string) (value : value) (r : record) (w : world) (err : thrown) :
  autosaveEnabled cfg = false → data (st w) = Val r →
  let patched := <[field := value]> r in
  let wc := updateField cfg field value w in
  let wf := save_resume cfg (Rejected err) wc.1 in
  wc.2 = None ∧
  log wc.1 = log w ++ [Update (collectionName cfg) (id_of patched) (strip patched)] ∧
  pending wc.1 = pending w ++ [KSave ByCaller] ∧
  data (st wc.1) = Val patched ∧ loading (st wc.1) = true ∧
  (field ∈ reserved → strip patched = strip r) ∧
  (field ∉ reserved → strip patched = <[field := value]> (strip r)) ∧
  (field = "id" → id_of patched = Some value) ∧
  (field ≠ "id" → id_of patched = id_of r) ∧
  data (st wf.1) = Val patched ∧ error (st wf.1) = Some (as_error err) ∧
  loading (st wf.1) = false ∧ wf.2 = Some (Failed (ThrownError (as_error err))).
Proof.
  intros Ha Hd patched wc wf. subst wc wf.
  unfold updateField, set_data, save. rewrite Hd, Ha. simpl.
  split_and!; try done.
  - apply strip_insert_reserved.
  - apply strip_insert_plain.
  - intros ->. unfold id_of, patched. by rewrite lookup_insert_eq.
  - intros Hne. unfold id_of, patched. by rewrite lookup_insert_ne.
Qed.

Lemma updateField_sends_patched_record_witness :
  let wc := updateField Samples.profile "updated" (VStr "t9") Samples.loaded in
  log wc.1 = [Update "profiles" (Some (VStr "r1")) (strip Samples.rec_r1)] ∧
  data (st wc.1) = Val (<["updated" := VStr "t9"]> Samples.rec_r1).
Proof.
  intros wc.
  destruct (updateField_sends_patched_record Samples.profile "updated" (VStr "t9")
              Samples.rec_r1 Samples.loaded Samples.offline eq_refl eq_refl)
    as (_ & Hl & _ & Hd & _ & Hres & _ & _ & Hid & _).
  split; [|exact Hd]. unfold wc.
  rewrite Hl, Hres, Hid; [reflexivity|discriminate|].
  apply Saving.reserved_spec. auto.
Defined.

(** X18.  With autosave, [updateField] on a record leaves the saving to the
    setter: the assignment issues the one update and the method returns the
    patched record at once, while that update is still in flight and
    [loading] is up; what the store answers never reaches the caller. *)
Theorem updateField_autosave_returns_early
    (cfg : config) (field : string) (value : value) (r : record) (w : world) :
  autosaveEnabled cfg = true → data (st w) = Val r →
  let patched := <[field := value]> r in
  let wc := updateField cfg field value w in
  wc.2 = Some (Fulfilled (Val patched)) ∧
  log wc.1 = log w ++ [Update (collectionName cfg) (id_of patched) (strip patched)] ∧
  pending wc.1 = pending w ++ [KSave ByAutosave] ∧
  data (st wc.1) = Val patched ∧ loading (st wc.1) = true ∧
  raised (settle wc) = raised w ∧
  ∀ o, raised (autosave_catch (save_resume cfg o wc.1)) = raised w.
Proof.
  intros Ha Hd patched wc. subst wc.
  unfold updateField, set_data, save. rewrite Hd, Ha. simpl.
  split_and!; try done.
  intros o. unfold autosave_catch, save_resume, set_data, save. rewrite Ha.
  destruct o; simpl; [destruct (negb (listen cfg))|]; reflexivity.
Qed.

Lemma updateField_autosave_returns_early_witness :
  let wc := updateField Samples.autosaved_profile "name" (VStr "B") Samples.loaded in
  wc.2 = Some (Fulfilled (Val (<["name" := VStr "B"]> Samples.rec_r1))) ∧
  pending wc.1 = [KSave ByAutosave].
Proof.
  intros wc.
  destruct (updateField_autosave_returns_early Samples.autosaved_profile "name" (VStr "B")
              Samples.rec_r1 Samples.loaded eq_refl eq_refl)
    as (Hret & _ & Hp & _).
  split; [exact Hret|exact Hp].
Defined.

End RecordEdits.

(** ** The authentication adapter beside the auth store *)

Module Sessions.
Import CurrentUserState.

Lemma iter_on_change n m s :
  userState (Nat.iter n (on_change m) s)
  = match n with O => userState s | S _ => of_model m end ∧
  loading (Nat.iter n (on_change m) s) = loading s.
Proof. induction n as [|n [IH1 IH2]]; simpl; auto. Qed.

Lemma step_listeners l a a' :
  step l a = Some a' → listeners a' = ((if is_attach l then 1 else 0) + listeners a)%nat.
Proof.
  destruct l; simpl; try (intros [= <-]; done).
  unfold end_login. destruct (logins a); [done|]. destruct o; intros [= <-]; done.
Qed.

Lemma run_listeners tr a0 a :
  run_steps step tr a0 = Some a →
  listeners a = (length (filter (λ l, is_attach l = true) tr) + listeners a0)%nat.
Proof.
  revert a0. induction tr as [|l tr IH]; intros a0; simpl.
  - intros [= <-]. done.
  - destruct (step l a0) as [a1|] eqn:Hs; simpl; [|done]. intros Hrun.
    rewrite (IH _ Hrun), (step_listeners _ _ _ Hs).
    rewrite filter_cons. destruct l; simpl; try case_decide; simpl; try done; lia.
Qed.

(** X19.  [stop] of the authentication adapter is empty and nothing else
    removes a callback from the auth store: after any run the store holds
    one callback of the adapter for every time it was attached, however
    often it was detached in between. *)
Theorem listeners_accumulate
    (m : option record) (valid : bool) (tr : list label) (a : session) :
  run m valid tr = Some a →
  listeners a = length (filter (λ l, is_attach l = true) tr).
Proof. intros Hrun. rewrite (run_listeners _ _ _ Hrun). simpl. lia. Qed.

Lemma listeners_accumulate_witness :
  ∃ a, run (Some Samples.alice) true Samples.session_trace = Some a ∧
       listeners a = 2%nat.
Proof.
  eexists. split; [vm_compute; reflexivity|].
  rewrite (listeners_accumulate (Some Samples.alice) true Samples.session_trace);
    [reflexivity|vm_compute; reflexivity].
Defined.

Lemma consistent_step l a a' : consistent a → step l a = Some a' → consistent a'.
Proof.
  intros (Hm & Hl & Hr). unfold consistent, data in *.
  destruct a as [[u ld] m v n k rq cl rj]. simpl in *.
  destruct l; simpl.
  - intros [= <-]. simpl. split_and!; done.
  - intros [= <-]. simpl. split_and!; done.
  - intros [= <-]. simpl. split_and!; try done.
    apply Forall_app. split; [done|]. constructor; [|done]. by eexists _, _.
  - unfold end_login. simpl. destruct k as [|k]; [done|].
    destruct o; intros [= <-]; simpl; split_and!; done.
  - intros [= <-]. simpl. split_and!; done.
  - intros [= <-]. simpl.
    destruct (iter_on_change n m0 (mkState u ld)) as [-> ->]. simpl.
    split_and!; try done. by destruct n.
Qed.

(** X20.  After any run of the authentication adapter beside the auth
    store, the identity cell is unset as long as the adapter was never
    attached, whatever the store holds, and shows the store's identity from
    the first attach on: [login] and [logout] never write the cell, it
    changes only through the store's callbacks.  [loading] is down whenever
    no login is in flight, and the only remote call the adapter issues is
    [authWithPassword] on the [users] collection. *)
Theorem cell_mirrors_store
    (m : option record) (valid : bool) (tr : list label) (a : session) :
  run m valid tr = Some a →
  match listeners a with
  | O => data a = Undefined
  | S _ => data a = of_model (model a)
  end ∧
  (logins a = 0%nat → loading (fields a) = false) ∧
  Forall (λ c, ∃ e p, c = AuthWithPassword "users" e p) (requests a).
Proof.
  intros Hrun. eapply (run_steps_invariant step consistent); [|..|exact Hrun].
  - intros l w1 w2. apply consistent_step.
  - unfold consistent. simpl. done.
Qed.

Lemma cell_mirrors_store_witness :
  ∃ a, run (Some Samples.alice) true Samples.session_trace = Some a ∧
       data a = Null ∧ model a = None ∧ loading (fields a) = false.
Proof.
  eexists. split; [vm_compute; reflexivity|].
  match goal with
  | |- data ?a = _ ∧ _ =>
      destruct (cell_mirrors_store (Some Samples.alice) true Samples.session_trace a)
        as (Hd & Hl & _); [vm_compute; reflexivity|]
  end.
  split; [exact Hd|]. split; [reflexivity|]. apply Hl. reflexivity.
Defined.

End Sessions.
